(** * MovieAutoCutter: range merging, detection and render planning

    A shallow embedding of the analysis-and-rendering core of
    MovieAutoCutter ([audio_tools.py], [video_tools.py], [processor.py]),
    with the planning and progress scaling of [business_logic.py] and
    [ensure_unique_filename] of [utils.py].

    Conventions of the model.
    - Times in milliseconds are exact integers ([Z]) and the pre/post
      margins are whole seconds; loudness values, frame rates, motion
      magnitudes and speed factors are exact rationals ([Q]).  Rounding of
      IEEE floats is outside the model; [np.mean], whose result depends on
      it, is a parameter of the functions that call it, and the four
      decimals of [:.4f] are modelled by [format_4f].
    - A Python list is a Rocq [list]; a loop over a list is a structural
      recursion over it, with the loop variables as arguments.
    - Calls to the outside world (subprocesses, dialogs, the MoviePy
      engine) are events appended to a trace by a small trace-and-exception
      monad; what the outside world answers is an explicit environment.
    - Functions of the Python, OpenCV and MoviePy libraries are modelled
      by their documented behaviour ([sorted], slicing, [int],
      [cv2.absdiff], the [ValueError] of [Clip.subclip]) or taken as
      parameters ([os.path.splitext], [np.mean]). *)

From Stdlib Require Import String.
From Stdlib Require DecimalString DecimalNat.
From Stdlib Require Import Permutation.
From Stdlib Require Import ZArith QArith Qminmax List Bool Lia Lqa Sorted.
Import ListNotations.

Open Scope Z_scope.

(* ===================================================================== *)
(** * processor.py : [merge_and_optimize_ranges]                          *)
(* ===================================================================== *)

(** A range is the Python tuple [(start_ms, end_ms)]. *)
Definition TimeRange : Type := (Z * Z)%type.

Definition range_start (r : TimeRange) : Z := fst r.
Definition range_end (r : TimeRange) : Z := snd r.
Definition duration (r : TimeRange) : Z := range_end r - range_start r.

(** [sorted(ranges, key=lambda x: x[0])].  Python's [sorted] is stable:
    entries with equal keys keep their input order.  Inserting each entry,
    from the right, in front of the first entry whose key is not smaller
    gives exactly the stable order. *)
Fixpoint insert_by_start (r : TimeRange) (l : list TimeRange) : list TimeRange :=
  match l with
  | [] => [r]
  | h :: t => if range_start r <=? range_start h then r :: h :: t
              else h :: insert_by_start r t
  end.

Definition sorted_by_start (ranges : list TimeRange) : list TimeRange :=
  fold_right insert_by_start [] ranges.

(** The [for next_start, next_end in sorted_ranges[1:]] loop together with
    the final append (lines 31-43).  [merged] is the list under
    construction; [current_start], [current_end] are the loop variables. *)
Fixpoint merge_loop (min_duration_ms gap_ms : Z)
    (current_start current_end : Z)
    (rest : list TimeRange) (merged : list TimeRange) : list TimeRange :=
  match rest with
  | [] =>
      if current_end - current_start >=? min_duration_ms
      then merged ++ [(current_start, current_end)]
      else merged
  | (next_start, next_end) :: rest' =>
      if next_start <? current_end + gap_ms
      then merge_loop min_duration_ms gap_ms
             current_start (Z.max current_end next_end) rest' merged
      else merge_loop min_duration_ms gap_ms next_start next_end rest'
             (if current_end - current_start >=? min_duration_ms
              then merged ++ [(current_start, current_end)]
              else merged)
  end.

(** [merge_and_optimize_ranges(ranges, min_duration_ms, gap_ms)].  The
    Python defaults are [min_duration_ms=500] and [gap_ms=100]. *)
Definition merge_and_optimize_ranges
    (ranges : list TimeRange) (min_duration_ms gap_ms : Z) : list TimeRange :=
  match ranges with
  | [] => []
  | _ =>
      match sorted_by_start ranges with
      | [] => []
      | (current_start, current_end) :: rest =>
          merge_loop min_duration_ms gap_ms current_start current_end rest []
      end
  end.

Definition default_min_duration_ms : Z := 500.
Definition default_gap_ms : Z := 100.

(** Predicates on range lists. *)
Definition start_le (a b : TimeRange) : Prop := range_start a <= range_start b.

(** Half-open intervals [a] and [b] do not meet, [a] lying first. *)
Definition ends_before (a b : TimeRange) : Prop := range_end a <= range_start b.

Definition disjoint (a b : TimeRange) : Prop := ends_before a b \/ ends_before b a.

(** [a] ends at least [gap] before [b] starts. *)
Definition separated_by (gap : Z) (a b : TimeRange) : Prop :=
  range_end a + gap <= range_start b.

(** What the merge loop emits: every range starts at or after [lo], lasts
    at least [d], starts are in order, and each range ends at least [g]
    before all later ones start. *)
Definition emitted_ok (d g lo : Z) (out : list TimeRange) : Prop :=
  Forall (fun r => lo <= range_start r /\ d <= duration r) out
  /\ StronglySorted start_le out
  /\ StronglySorted (separated_by g) out.

(* ===================================================================== *)
(** * audio_tools.py                                                      *)
(* ===================================================================== *)

(** One entry of [make_chunks(audio, chunk_length_ms)]: pydub's integer
    [rms] and its [dBFS].  ([dBFS] of a chunk with [rms = 0] is minus
    infinity in pydub; the code never reads it there, and neither does the
    model.) *)
Record Chunk : Type := mkChunk { rms : Z; dBFS : Q }.

(** The literal [-90.0]. *)
Definition floor_dB : Q := (-90)%Q.

(** [x < y] and [x > y] on rationals, as booleans. *)
Definition Qltb (x y : Q) : bool := negb (Qle_bool y x).
Definition Qgtb (x y : Q) : bool := Qltb y x.

(** [enumerate(l)]. *)
Definition enumerate {A : Type} (l : list A) : list (nat * A) :=
  combine (seq 0 (length l)) l.

(** [l[i] = v] for [i] within the list. *)
Fixpoint list_assign {A : Type} (l : list A) (i : nat) (v : A) : list A :=
  match l, i with
  | [], _ => []
  | _ :: t, O => v :: t
  | h :: t, S i' => h :: list_assign t i' v
  end.

(** Lines 22-25: the list starts as [[-90.0] * len(chunks)] and the entry
    of every chunk with [rms > 0] is overwritten by its [dBFS].  (The
    progress callback of lines 26-27 only reports; it is left out.) *)
Definition loudness_step (loudness_dBs : list Q) (ic : nat * Chunk) : list Q :=
  let '(i, chunk) := ic in
  if rms chunk >? 0 then list_assign loudness_dBs i (dBFS chunk) else loudness_dBs.

Definition chunk_loudness_list (chunks : list Chunk) : list Q :=
  fold_left loudness_step (enumerate chunks) (repeat floor_dB (length chunks)).

(** [min] and [max] of a non-empty list. *)
Definition list_min (l : list Q) : Q :=
  match l with [] => 0%Q | x :: t => fold_left Qmin t x end.
Definition list_max (l : list Q) : Q :=
  match l with [] => 0%Q | x :: t => fold_left Qmax t x end.

(** [analyze_audio_dB]: the tuple (min, max, mean, list of dB values).
    [np_mean] is NumPy's [np.mean]: a sum and a division in floating point,
    whose rounding the model does not fix; it is a parameter. *)
Definition analyze_audio_dB (np_mean : list Q -> Q) (chunks : list Chunk)
    : Q * Q * Q * list Q :=
  let loudness_dBs := chunk_loudness_list chunks in
  let valid_dbs := filter (fun db => Qgtb db floor_dB) loudness_dBs in
  match valid_dbs with
  | [] => (floor_dB, floor_dB, floor_dB, [])
  | _ => (list_min valid_dbs, list_max valid_dbs, np_mean valid_dbs, loudness_dBs)
  end.

(** The mean in exact arithmetic: what [np.mean] returns up to the
    rounding of its floating-point sum and division.  It stands in for
    [np.mean] where an example is run. *)
Definition exact_mean (l : list Q) : Q :=
  (fold_left Qplus l 0 / inject_Z (Z.of_nat (length l)))%Q.

(** The loudness the analyzer records for one chunk. *)
Definition chunk_loudness (chunk : Chunk) : Q :=
  if rms chunk >? 0 then dBFS chunk else floor_dB.

(** Line 53: [chunk.dBFS < silence_thresh_dB if chunk.rms > 0 else True]. *)
Definition is_silent_chunk (silence_thresh_dB : Q) (chunk : Chunk) : bool :=
  if rms chunk >? 0 then Qltb (dBFS chunk) silence_thresh_dB else true.

(** The loop variables of [detect_silence_based_on_dB]. *)
Record silence_state : Type := mkSilence {
  is_in_silence : bool;
  silence_start_time : Z;
  silence_ranges : list TimeRange
}.

Definition silence_step (silence_thresh_dB : Q) (chunk_length_ms : Z)
    (st : silence_state) (ic : nat * Chunk) : silence_state :=
  let '(i, chunk) := ic in
  let time_ms := Z.of_nat i * chunk_length_ms in
  if is_silent_chunk silence_thresh_dB chunk then
    if negb (is_in_silence st)
    then mkSilence true time_ms (silence_ranges st)
    else st
  else if is_in_silence st
    then mkSilence false (silence_start_time st)
           (silence_ranges st ++ [(silence_start_time st, time_ms)])
    else st.

(** [detect_silence_based_on_dB].  [chunks] is
    [make_chunks(audio, chunk_length_ms)] and [audio_len] is [len(audio)],
    the total duration in milliseconds. *)
Definition detect_silence_based_on_dB (chunks : list Chunk) (audio_len : Z)
    (silence_thresh_dB : Q) (chunk_length_ms : Z) : list TimeRange :=
  let st := fold_left (silence_step silence_thresh_dB chunk_length_ms)
              (enumerate chunks) (mkSilence false 0 []) in
  if is_in_silence st
  then silence_ranges st ++ [(silence_start_time st, audio_len)]
  else silence_ranges st.

(* ===================================================================== *)
(** * video_tools.py : [detect_central_static_frames]                     *)
(* ===================================================================== *)

(** What [cv2.VideoCapture] reports: [CAP_PROP_FPS] is [0] when the frame
    rate is not available; [frame_count] is
    [int(video.get(cv2.CAP_PROP_FRAME_COUNT))]. *)
Record VideoCapture : Type := mkCapture {
  isOpened : bool;
  CAP_PROP_FPS : Q;
  frame_count : Z
}.

(** [_iterate_frames_for_diff] yields [(frame_num, diff)] with [frame_num]
    counting from 1; [diffs] are the values of [get_central_frame_diff] on
    the consecutive frame pairs. *)
Definition _iterate_frames_for_diff (diffs : list Q) : list (Z * Q) :=
  combine (map (fun i => Z.of_nat (S i)) (seq 0 (length diffs))) diffs.

(** Line 97: [fps = fps if fps > 0 else 30]. *)
Definition fps_or_fallback (fps : Q) : Q :=
  if Qgtb fps 0 then fps else 30%Q.

(** Lines 115-116: [(frame / fps) * 1000]. *)
Definition frame_to_ms (frame : Z) (fps : Q) : Q :=
  ((inject_Z frame / fps) * 1000)%Q.

Record static_state : Type := mkStatic {
  is_in_static : bool;
  static_start_frame : Z;
  static_ranges : list (Q * Q)
}.

Definition static_step (movement_thresh fps : Q)
    (st : static_state) (fd : Z * Q) : static_state :=
  let '(frame_num, diff) := fd in
  let is_static_now := Qltb diff movement_thresh in
  if is_static_now && negb (is_in_static st)
  then mkStatic true frame_num (static_ranges st)
  else if negb is_static_now && is_in_static st
  then mkStatic false (static_start_frame st)
         (static_ranges st
            ++ [(frame_to_ms (static_start_frame st) fps, frame_to_ms frame_num fps)])
  else st.

Definition detect_central_static_frames (video : VideoCapture)
    (movement_thresh : Q) (diffs : list Q) : list (Q * Q) :=
  if negb (isOpened video) then []
  else
    let fps := fps_or_fallback (CAP_PROP_FPS video) in
    let total_frames := frame_count video in
    let st := fold_left (static_step movement_thresh fps)
                (_iterate_frames_for_diff diffs) (mkStatic false 0 []) in
    if is_in_static st
    then static_ranges st
           ++ [(frame_to_ms (static_start_frame st) fps, frame_to_ms total_frames fps)]
    else static_ranges st.

(* ===================================================================== *)
(** * processor.py : [_FFmpegFilterBuilder]                               *)
(* ===================================================================== *)

(** Line 19. *)
Definition MAX_CONCAT_STREAMS : Z := 50.

(** [processing_mode]: the code tests [processing_mode == "倍速"]
    (speed-up); every other value, in practice ["カット"], cuts. *)
Inductive processing_mode : Type := ModeCut | ModeSpeedup.

(** The entries of [video_filters] and [audio_filters].  The code renders
    them as text; the model keeps their content.  [start_ms] and [end_ms]
    are the arguments of [add_clip]/[add_speedup_clip]; the text carries
    them divided by [1000.0], in seconds.
    - [VTrim s e k]          : [[0:v]trim=start=s:end=e,setpts=PTS-STARTPTS[vk]]
    - [VTrimSpeed s e f k]   : [[0:v]trim=...,setpts=PTS/f-STARTPTS[vk]]
    - [VConcat ins n fps]    : [insconcat=n=n:v=1:a=0,fps=fps[outv]]
    - [ATrim s e k]          : [[0:a]atrim=start=s:end=e,asetpts=PTS-STARTPTS[ak]]
    - [ATrimSpeed s e c v k] : [[0:a]atrim=...,asetpts=PTS-STARTPTS,c,volume=v[ak]]
    - [AConcat ins n]        : [insconcat=n=n:v=0:a=1[outa]] *)
Inductive video_filter : Type :=
| VTrim (start_ms end_ms : Z) (label : nat)
| VTrimSpeed (start_ms end_ms : Z) (factor : Q) (label : nat)
| VConcat (inputs : list nat) (n : nat) (fps : Q).

Inductive audio_filter : Type :=
| ATrim (start_ms end_ms : Z) (label : nat)
| ATrimSpeed (start_ms end_ms : Z) (atempo_chain : list Q) (volume : Q) (label : nat)
| AConcat (inputs : list nat) (n : nat).

Record _FFmpegFilterBuilder : Type := mkBuilder {
  has_audio : bool;
  fps : Q;
  video_filters : list video_filter;
  audio_filters : list audio_filter;
  v_concat_inputs : list nat;
  a_concat_inputs : list nat;
  stream_counter : nat
}.

(** [__init__]. *)
Definition builder_init (has_audio : bool) (fps : Q) : _FFmpegFilterBuilder :=
  mkBuilder has_audio fps [] [] [] [] 0.

(** [add_clip]. *)
Definition add_clip (self : _FFmpegFilterBuilder) (start_ms end_ms : Z)
    : _FFmpegFilterBuilder :=
  if start_ms >=? end_ms then self
  else
    let k := stream_counter self in
    mkBuilder (has_audio self) (fps self)
      (video_filters self ++ [VTrim start_ms end_ms k])
      (if has_audio self then audio_filters self ++ [ATrim start_ms end_ms k]
       else audio_filters self)
      (v_concat_inputs self ++ [k])
      (if has_audio self then a_concat_inputs self ++ [k] else a_concat_inputs self)
      (S k).

(** The [while factor > 100.0] loop of [_build_atempo_chain]; [None] when
    the fuel runs out before the loop ends. *)
Fixpoint atempo_loop (fuel : nat) (factor : Q) (filters : list Q)
    : option (Q * list Q) :=
  match fuel with
  | O => None
  | S fuel' =>
      if Qgtb factor 100
      then atempo_loop fuel' (factor / 100)%Q (filters ++ [100%Q])
      else Some (factor, filters)
  end.

(** Fuel that is always enough: more than the binary logarithm of the
    numerator (see [atempo_loop_terminates]). *)
Definition atempo_fuel (factor : Q) : nat :=
  S (Z.to_nat (Z.succ (Z.log2 (Qnum factor)))).

(** [f"{x:.4f}"]: the number the text denotes, [x] rounded to four
    decimals.  Python rounds the exact value to the nearest multiple of
    [0.0001], a tie going to the even one. *)
Definition format_4f (x : Q) : Q :=
  let scaled := Qnum x * 10000 in
  let den := Z.pos (Qden x) in
  let q := scaled / den in
  let r := scaled mod den in
  let n := if 2 * r <? den then q
           else if 2 * r >? den then q + 1
           else if Z.even q then q else q + 1 in
  n # 10000.

(** [_build_atempo_chain]: the multipliers of the [atempo=...] stages, in
    order, as the text carries them: [100.0] for every round of the loop,
    and the rest of the factor with four decimals ([:.4f]).  The empty list
    stands for the empty string. *)
Definition _build_atempo_chain (factor : Q) : list Q :=
  if Qle_bool factor 1 then []
  else
    match atempo_loop (atempo_fuel factor) factor [] with
    | Some (factor', filters) =>
        if Qgtb factor' 1 then filters ++ [format_4f factor'] else filters
    | None => []
    end.

(** [add_speedup_clip]; the volume is printed with four decimals
    ([volume={volume:.4f}]). *)
Definition add_speedup_clip (self : _FFmpegFilterBuilder) (start_ms end_ms : Z)
    (factor volume : Q) : _FFmpegFilterBuilder :=
  if start_ms >=? end_ms then self
  else
    let k := stream_counter self in
    mkBuilder (has_audio self) (fps self)
      (video_filters self ++ [VTrimSpeed start_ms end_ms factor k])
      (if has_audio self
       then audio_filters self
              ++ [ATrimSpeed start_ms end_ms (_build_atempo_chain factor)
                    (format_4f volume) k]
       else audio_filters self)
      (v_concat_inputs self ++ [k])
      (if has_audio self then a_concat_inputs self ++ [k] else a_concat_inputs self)
      (S k).

Definition nonempty {A : Type} (l : list A) : bool :=
  match l with [] => false | _ => true end.

(** [build]: (video filter graph, audio filter graph, stream count); an
    empty graph stands for the empty string. *)
Definition build (self : _FFmpegFilterBuilder)
    : list video_filter * list audio_filter * nat :=
  if Nat.eqb (stream_counter self) 0 then ([], [], 0%nat)
  else
    let video_filter_complex :=
      video_filters self
        ++ [VConcat (v_concat_inputs self) (stream_counter self) (fps self)] in
    let audio_filter_complex :=
      if has_audio self && nonempty (a_concat_inputs self)
      then audio_filters self ++ [AConcat (a_concat_inputs self) (stream_counter self)]
      else [] in
    (video_filter_complex, audio_filter_complex, stream_counter self).

(* ===================================================================== *)
(** * processor.py : [_process_chunk], the filter graph of the fast path  *)
(* ===================================================================== *)

(** What [mp.VideoFileClip(file_path)] gives: [video.fps] (possibly
    [None]), whether [video.audio is not None], and [video.duration * 1000]. *)
Record VideoFileClip : Type := mkClip {
  clip_fps : option Q;
  clip_has_audio : bool;
  clip_duration_ms : Z
}.

(** The configuration keys the render stage reads. *)
Record Config : Type := mkConfig {
  use_ffmpeg_direct : bool;
  speedup_factor : Q;
  speedup_volume_percent : Q;
  encoder_priority : list string
}.

(** Line 132: [video.fps if video.fps and video.fps > 0 else 30].  [None]
    and [0] are both false in Python. *)
Definition builder_fps (video_fps : option Q) : Q :=
  match video_fps with
  | Some f => if negb (Qeq_bool f 0) && Qgtb f 0 then f else 30%Q
  | None => 30%Q
  end.

(** One round of the loop of lines 143-156. *)
Definition chunk_step (mode : processing_mode) (pre_cut_ms post_cut_ms : Z)
    (factor volume : Q)
    (st : _FFmpegFilterBuilder * Z) (r : TimeRange) : _FFmpegFilterBuilder * Z :=
  let '(builder, last_end_ms) := st in
  let '(start_ms, end_ms) := r in
  let proc_start := start_ms - pre_cut_ms in
  let proc_end := end_ms + post_cut_ms in
  let builder := add_clip builder last_end_ms proc_start in
  let builder :=
    match mode with
    | ModeSpeedup => add_speedup_clip builder proc_start proc_end factor volume
    | ModeCut => builder
    end in
  (builder, end_ms).

(** Lines 131-159 of [_process_chunk]: the builder after every plan range
    and the tail have been added.  Margins are given in seconds. *)
Definition _process_chunk_builder (video : VideoFileClip)
    (ranges_to_process : list TimeRange) (mode : processing_mode)
    (pre_cut_seconds post_cut_seconds : Z) (video_duration_ms : Z)
    (config : Config) : _FFmpegFilterBuilder :=
  let fps := builder_fps (clip_fps video) in
  let has_audio := clip_has_audio video in
  let pre_cut_ms := pre_cut_seconds * 1000 in
  let post_cut_ms := post_cut_seconds * 1000 in
  let builder := builder_init has_audio fps in
  let speedup_factor := speedup_factor config in
  let speedup_volume := (speedup_volume_percent config / 100)%Q in
  let '(builder, last_end_ms) :=
    fold_left (chunk_step mode pre_cut_ms post_cut_ms speedup_factor speedup_volume)
      ranges_to_process (builder, 0) in
  add_clip builder last_end_ms video_duration_ms.

(** A segment of the graph: a trimmed stretch of the source, passed
    through or transformed. *)
Inductive segment : Type :=
| PASSTHROUGH (start_ms end_ms : Z)
| TRANSFORM (start_ms end_ms : Z) (factor : Q).

Definition segment_of_filter (f : video_filter) : list segment :=
  match f with
  | VTrim s e _ => [PASSTHROUGH s e]
  | VTrimSpeed s e factor _ => [TRANSFORM s e factor]
  | VConcat _ _ _ => []
  end.

(** The segments a builder has emitted, in order. *)
Definition segments (b : _FFmpegFilterBuilder) : list segment :=
  flat_map segment_of_filter (video_filters b).

Definition seg_start (s : segment) : Z :=
  match s with PASSTHROUGH a _ => a | TRANSFORM a _ _ => a end.
Definition seg_end (s : segment) : Z :=
  match s with PASSTHROUGH _ b => b | TRANSFORM _ b _ => b end.
Definition seg_duration (s : segment) : Z := seg_end s - seg_start s.

Definition total_duration (l : list segment) : Z :=
  fold_right (fun s acc => seg_duration s + acc) 0 l.

(** [l] is a chain of non-empty segments from [from] to [to]: it starts at
    [from], every segment starts where the one before ends, and the last
    one ends at [to]. *)
Fixpoint tiles (from to : Z) (l : list segment) : Prop :=
  match l with
  | [] => from = to
  | s :: l' => seg_start s = from /\ seg_start s < seg_end s /\ tiles (seg_end s) to l'
  end.

(** The plan is ordered, its ranges are non-empty and end by [total], and
    each range, widened by [pre_cut_ms] at its start, begins no earlier
    than [from], respectively than the end of the range before it. *)
Fixpoint margin_fits (pre_cut_ms from total : Z) (plan : list TimeRange) : Prop :=
  match plan with
  | [] => from <= total
  | (s, e) :: plan' =>
      from <= s - pre_cut_ms /\ s < e /\ margin_fits pre_cut_ms e total plan'
  end.

(** A valid ProcessingPlan: ordered, disjoint, non-empty ranges within
    [0, total]. *)
Definition valid_plan (total : Z) (plan : list TimeRange) : Prop :=
  margin_fits 0 0 total plan.

(* ===================================================================== *)
(** * processor.py : running a render job                                 *)
(* ===================================================================== *)

(** The three subprocess steps of the fast path, by their
    [command_description]: ["映像処理"], ["音声処理"], ["最終結合処理"]. *)
Inductive ffmpeg_step : Type := VideoPass | AudioPass | MuxPass.

(** How [subprocess.run(command, check=True, ...)] ends: exit status zero;
    a non-zero exit status ([CalledProcessError]); or the process cannot be
    started at all (an [OSError], which is not a [CalledProcessError]). *)
Inductive proc_outcome : Type := ExitZero | ExitNonZero | LaunchFailed.

(** The exceptions of a render job: the [OSError] of a subprocess that
    cannot be started; the error of [mp.VideoFileClip] on a file it cannot
    open; the [IndexError] of [config["encoder_priority"][0]] on an empty
    list; the [ValueError] of [Clip.subclip]. *)
Inductive exn : Type :=
| OSError (step : ffmpeg_step)
| ClipOpenError
| IndexError
| ValueError.

(** The dialogs of [messagebox.showerror]. *)
Inductive error_dialog : Type :=
| FFmpegEncodeError (step : ffmpeg_step)   (* line 56 *)
| FileOpenError                            (* line 184 *)
| MoviePyEncodeError.                      (* line 230 *)

(** A clip of the MoviePy path: [video.subclip(a, b)], as it is or sped up
    and with its volume scaled.  Bounds are kept in milliseconds. *)
Inductive moviepy_clip : Type :=
| Subclip (start_ms end_ms : Z)
| SpedUp (start_ms end_ms : Z) (factor volume : Q).

(** What a run does to the outside world, in order.  Log lines and
    progress callbacks are not recorded. *)
Inductive event : Type :=
| RunFFmpeg (step : ffmpeg_step)
| DialogError (d : error_dialog)
| DialogDone                                  (* showinfo("変換完了", ...) *)
| CallMoviePy                               (* entry of _process_with_moviepy *)
| Concatenate (clips : list moviepy_clip)
| EncodeVideo (codec : string).

(** What the outside world answers: whether the source file opens, how
    each subprocess ends, and which encoders [write_videofile] can use.
    Failures of the file system ([os.makedirs], the temporary directory) are
    outside the model. *)
Record World : Type := mkWorld {
  source : option VideoFileClip;            (* None: the file cannot be opened *)
  run_subprocess : ffmpeg_step -> proc_outcome;
  encoder_works : string -> bool
}.

(** Computations that append to a trace and may raise. *)
Definition M (A : Type) : Type := list event -> (A + exn) * list event.

Definition ret {A : Type} (a : A) : M A := fun tr => (inl a, tr).

Definition bind {A B : Type} (m : M A) (k : A -> M B) : M B :=
  fun tr =>
    match m tr with
    | (inl a, tr') => k a tr'
    | (inr e, tr') => (inr e, tr')
    end.

Definition emit (ev : event) : M unit := fun tr => (inl tt, tr ++ [ev]).

Definition raise {A : Type} (e : exn) : M A := fun tr => (inr e, tr).

(** [try: m  except Exception: handler]. *)
Definition try_except {A : Type} (m : M A) (handler : exn -> M A) : M A :=
  fun tr =>
    match m tr with
    | (inl a, tr') => (inl a, tr')
    | (inr e, tr') => handler e tr'
    end.

Declare Scope m_scope.
Delimit Scope m_scope with M.
Notation "x <- m ;; k" := (bind m (fun x => k))
  (at level 61, m at next level, right associativity) : m_scope.
Notation "m ;;; k" := (bind m (fun _ => k))
  (at level 61, right associativity) : m_scope.

Definition run {A : Type} (m : M A) : (A + exn) * list event := m [].
Definition trace_of {A : Type} (m : M A) : list event := snd (run m).
Definition result_of {A : Type} (m : M A) : A + exn := fst (run m).

(** [mp.VideoFileClip(file_path)]. *)
Definition open_clip (w : World) : M VideoFileClip :=
  match source w with
  | Some video => ret video
  | None => raise ClipOpenError
  end.

(** [_run_ffmpeg_command]: [True] on exit status zero; on
    [CalledProcessError] an error dialog and [False]; any other exception
    is not caught here. *)
Definition _run_ffmpeg_command (w : World) (step : ffmpeg_step) : M bool :=
  (emit (RunFFmpeg step) ;;;
   match run_subprocess w step with
   | ExitZero => ret true
   | ExitNonZero => emit (DialogError (FFmpegEncodeError step)) ;;; ret false
   | LaunchFailed => raise (OSError step)
   end)%M.

(** [config["encoder_priority"][0]] (line 167). *)
Definition first_encoder (config : Config) : M string :=
  match encoder_priority config with
  | codec :: _ => ret codec
  | [] => raise IndexError
  end.

(** [_process_chunk].  The command line of the video pass is put together,
    with the first encoder of the configuration, before the first
    subprocess is run (line 167) and after the return for an empty graph
    (line 162). *)
Definition _process_chunk (w : World) (ranges_to_process : list TimeRange)
    (mode : processing_mode) (pre_cut_seconds post_cut_seconds : Z)
    (video_duration_ms : Z) (config : Config) : M bool :=
  (video <- open_clip w ;;
   let builder := _process_chunk_builder video ranges_to_process mode
                    pre_cut_seconds post_cut_seconds video_duration_ms config in
   let '(video_fc, audio_fc, stream_count) := build builder in
   if Nat.eqb stream_count 0 then ret true
   else
     codec <- first_encoder config ;;
     ok_video <- _run_ffmpeg_command w VideoPass ;;
     if negb ok_video then ret false
     else
       ok_audio <- (if clip_has_audio video && nonempty audio_fc
                    then _run_ffmpeg_command w AudioPass
                    else ret true) ;;
       if negb ok_audio then ret false
       else
         ok_mux <- _run_ffmpeg_command w MuxPass ;;
         if negb ok_mux then ret false else ret true)%M.

(** [video.subclip(t_start, t_end)] of the MoviePy library, for a video
    of the given duration: a negative [t_start] counts from the end of the
    video, and the call raises [ValueError] when [t_start] then lies past
    the duration.  Times are in milliseconds here, in seconds in the call. *)
Definition subclip_raises (video_duration_ms t_start_ms : Z) : bool :=
  let t_start_ms :=
    if t_start_ms <? 0 then video_duration_ms + t_start_ms else t_start_ms in
  t_start_ms >? video_duration_ms.

(** The loop variables of [_process_with_moviepy]: the list [clips], the
    variable [last_end_ms], and whether a [subclip] call has raised, which
    ends the loop. *)
Record moviepy_state : Type := mkMoviePy {
  mp_clips : list moviepy_clip;
  mp_last_end_ms : Z;
  mp_raised : bool
}.

(** One round of the loop of lines 198-210 of [_process_with_moviepy]. *)
Definition moviepy_step (mode : processing_mode) (pre_cut_ms post_cut_ms : Z)
    (video_duration_ms : Z) (speedup_factor speedup_volume : Q)
    (st : moviepy_state) (r : TimeRange) : moviepy_state :=
  if mp_raised st then st
  else
    let clips := mp_clips st in
    let last_end_ms := mp_last_end_ms st in
    let '(start_ms, end_ms) := r in
    let proc_start_with_precut := Z.max last_end_ms (start_ms - pre_cut_ms) in
    let proc_end_with_postcut := Z.min video_duration_ms (end_ms + post_cut_ms) in
    if (proc_start_with_precut >? last_end_ms)
       && subclip_raises video_duration_ms last_end_ms
    then mkMoviePy clips last_end_ms true
    else
      let clips :=
        if proc_start_with_precut >? last_end_ms
        then clips ++ [Subclip last_end_ms proc_start_with_precut]
        else clips in
      match mode with
      | ModeSpeedup =>
          if proc_end_with_postcut >? proc_start_with_precut
          then
            if subclip_raises video_duration_ms proc_start_with_precut
            then mkMoviePy clips last_end_ms true
            else mkMoviePy
                   (clips ++ [SpedUp proc_start_with_precut proc_end_with_postcut
                                speedup_factor speedup_volume])
                   end_ms false
          else mkMoviePy clips end_ms false
      | ModeCut => mkMoviePy clips end_ms false
      end.

(** Lines 192-212: the loop over the plan and the clip after the last
    range. *)
Definition moviepy_loop (video : VideoFileClip) (ranges_to_process : list TimeRange)
    (mode : processing_mode) (pre_cut_seconds post_cut_seconds : Z)
    (speedup_factor speedup_volume : Q) : moviepy_state :=
  let pre_cut_ms := pre_cut_seconds * 1000 in
  let post_cut_ms := post_cut_seconds * 1000 in
  let video_duration_ms := clip_duration_ms video in
  let st :=
    fold_left (moviepy_step mode pre_cut_ms post_cut_ms video_duration_ms
                 speedup_factor speedup_volume)
      ranges_to_process (mkMoviePy [] 0 false) in
  if mp_raised st then st
  else if mp_last_end_ms st <? video_duration_ms
  then
    if subclip_raises video_duration_ms (mp_last_end_ms st)
    then mkMoviePy (mp_clips st) (mp_last_end_ms st) true
    else mkMoviePy (mp_clips st ++ [Subclip (mp_last_end_ms st) video_duration_ms])
           (mp_last_end_ms st) false
  else st.

(** The list [clips] as lines 192-212 leave it: the clips the MoviePy path
    concatenates, respectively the clips built before a [subclip] call
    raised. *)
Definition moviepy_clips (video : VideoFileClip) (ranges_to_process : list TimeRange)
    (mode : processing_mode) (pre_cut_seconds post_cut_seconds : Z)
    (speedup_factor speedup_volume : Q) : list moviepy_clip :=
  mp_clips (moviepy_loop video ranges_to_process mode
              pre_cut_seconds post_cut_seconds speedup_factor speedup_volume).

(** Whether lines 192-212 end in the [ValueError] of a [subclip] call. *)
Definition moviepy_raises (video : VideoFileClip) (ranges_to_process : list TimeRange)
    (mode : processing_mode) (pre_cut_seconds post_cut_seconds : Z)
    (speedup_factor speedup_volume : Q) : bool :=
  mp_raised (moviepy_loop video ranges_to_process mode
               pre_cut_seconds post_cut_seconds speedup_factor speedup_volume).

(** Lines 220-225: try the encoders in order until one works. *)
Fixpoint write_with_encoders (w : World) (codecs : list string) : M bool :=
  match codecs with
  | [] => ret false
  | codec :: codecs' =>
      (emit (EncodeVideo codec) ;;;
       if encoder_works w codec then ret true
       else write_with_encoders w codecs')%M
  end.

(** [_process_with_moviepy].  Opening the source is guarded by a [try];
    the loop that builds the clips is not, so the [ValueError] of a
    [subclip] call leaves the function. *)
Definition _process_with_moviepy (w : World) (ranges_to_process : list TimeRange)
    (mode : processing_mode) (pre_cut_seconds post_cut_seconds : Z)
    (config : Config) (speedup_factor speedup_volume : Q) : M unit :=
  (emit CallMoviePy ;;;
   match source w with
   | None => emit (DialogError FileOpenError)
   | Some video =>
       if moviepy_raises video ranges_to_process mode
            pre_cut_seconds post_cut_seconds speedup_factor speedup_volume
       then raise ValueError
       else
         let clips := moviepy_clips video ranges_to_process mode
                        pre_cut_seconds post_cut_seconds
                        speedup_factor speedup_volume in
         if nonempty clips
         then
           emit (Concatenate clips) ;;;
           success <- write_with_encoders w (encoder_priority config) ;;
           if success then emit DialogDone
           else emit (DialogError MoviePyEncodeError)
         else ret tt
   end)%M.

(** Lines 243-246: the stream-count estimate. *)
Definition estimate_stream_count (has_audio : bool)
    (ranges_to_process : list TimeRange) : Z :=
  let stream_count := Z.of_nat (length ranges_to_process) * 2 + 1 in
  if has_audio then Z.of_nat (length ranges_to_process) * 2 + 1
  else stream_count.

(** Lines 235-251: the value of [use_ffmpeg_direct] when the render
    starts; [true] is the fast (direct FFmpeg) path, [false] the safe
    (MoviePy) path. *)
Definition select_backend (w : World) (config : Config)
    (ranges_to_process : list TimeRange) : M bool :=
  if use_ffmpeg_direct config then
    (video <- open_clip w ;;
     let has_audio := clip_has_audio video in
     let stream_count := estimate_stream_count has_audio ranges_to_process in
     if stream_count >? MAX_CONCAT_STREAMS then ret false else ret true)%M
  else ret false.

(** Lines 256-265: the body of the [try] of [cut_or_speedup_video], the
    attempt on the fast path. *)
Definition fast_path_attempt (w : World) (ranges_to_process : list TimeRange)
    (mode : processing_mode) (pre_cut_seconds post_cut_seconds : Z)
    (config : Config) : M unit :=
  (video <- open_clip w ;;
   let video_duration_ms := clip_duration_ms video in
   ok <- _process_chunk w ranges_to_process mode
           pre_cut_seconds post_cut_seconds video_duration_ms config ;;
   if ok then emit DialogDone else ret tt)%M.

(** [cut_or_speedup_video].  An exception of the handler, or of the MoviePy
    path of the [else] branch, leaves the function. *)
Definition cut_or_speedup_video (w : World) (ranges_to_process : list TimeRange)
    (mode : processing_mode) (pre_cut_seconds post_cut_seconds : Z)
    (config : Config) (speedup_factor speedup_volume : Q) : M unit :=
  (use_ffmpeg_direct <- select_backend w config ranges_to_process ;;
   if use_ffmpeg_direct then
     try_except
       (fast_path_attempt w ranges_to_process mode
          pre_cut_seconds post_cut_seconds config)
       (fun _ =>
          _process_with_moviepy w ranges_to_process mode
            pre_cut_seconds post_cut_seconds config speedup_factor speedup_volume)
   else
     _process_with_moviepy w ranges_to_process mode
       pre_cut_seconds post_cut_seconds config speedup_factor speedup_volume)%M.

(** How often a run enters the MoviePy path. *)
Definition is_CallMoviePy (ev : event) : bool :=
  match ev with CallMoviePy => true | _ => false end.

Definition moviepy_calls (tr : list event) : nat :=
  List.length (filter is_CallMoviePy tr).

(** The product of the stage multipliers. *)
Definition stage_product (stages : list Q) : Q := fold_right Qmult 1%Q stages.

(** Events that only the MoviePy path produces after its entry. *)
Definition after_moviepy_entry (ev : event) : Prop :=
  match ev with
  | RunFFmpeg _ | CallMoviePy => False
  | _ => True
  end.

(** How the attempt on the fast path can end, as (result, trace): the
    steps that ran, all but possibly the last with exit status zero, and
    - the success dialog, when every step exited with zero;
    - the error dialog of the step that exited non-zero;
    - the [OSError] of the step that could not be started;
    or, before any step, the [IndexError] of an empty encoder list. *)
Inductive fast_outcome (w : World) (config : Config)
    : (unit + exn) * list event -> Prop :=
| FO_done (ran : list ffmpeg_step) :
    Forall (fun s => run_subprocess w s = ExitZero) ran ->
    fast_outcome w config (inl tt, map RunFFmpeg ran ++ [DialogDone])
| FO_nonzero (ran : list ffmpeg_step) (s : ffmpeg_step) :
    Forall (fun s => run_subprocess w s = ExitZero) ran ->
    run_subprocess w s = ExitNonZero ->
    fast_outcome w config
      (inl tt, map RunFFmpeg ran ++ [RunFFmpeg s; DialogError (FFmpegEncodeError s)])
| FO_launch (ran : list ffmpeg_step) (s : ffmpeg_step) :
    Forall (fun s => run_subprocess w s = ExitZero) ran ->
    run_subprocess w s = LaunchFailed ->
    fast_outcome w config (inr (OSError s), map RunFFmpeg ran ++ [RunFFmpeg s])
| FO_no_encoder :
    encoder_priority config = [] ->
    fast_outcome w config (inr IndexError, []).

(* ===================================================================== *)
(** * Concrete inputs used by the examples                                *)
(* ===================================================================== *)

(** The end-to-end example: 60 s of video, plan [(10000, 20000)],
    pre-margin 2 s, post-margin 1 s. *)
Definition example_plan : list TimeRange := [(10000, 20000)].

Definition three_quiet_chunks : list Chunk :=
  [mkChunk 0 0; mkChunk 3 (-95)%Q; mkChunk 0 0].

Definition example_video : VideoFileClip := mkClip (Some 30%Q) true 60000.

Definition example_config : Config :=
  mkConfig true 5 50 ["h264_nvenc"%string; "libx264"%string].

(** A world in which the video pass of FFmpeg exits with a non-zero
    status. *)
Definition world_video_pass_fails : World :=
  mkWorld (Some example_video)
    (fun step => match step with VideoPass => ExitNonZero | _ => ExitZero end)
    (fun _ => true).

(** A world in which FFmpeg cannot be started for the mux step. *)
Definition world_mux_not_started : World :=
  mkWorld (Some example_video)
    (fun step => match step with MuxPass => LaunchFailed | _ => ExitZero end)
    (fun _ => true).

(* ===================================================================== *)
(** * Notions used by the further properties                              *)
(* ===================================================================== *)

(** Range [o] covers range [r]. *)
Definition covers (o r : TimeRange) : Prop :=
  range_start o <= range_start r /\ range_end r <= range_end o.

(** Range [r] lies within [lo, hi]. *)
Definition within (lo hi : Z) (r : TimeRange) : Prop :=
  lo <= range_start r /\ range_end r <= hi.

(** Range [r] is non-empty and lies within [0, hi]. *)
Definition well_formed_in (hi : Z) (r : TimeRange) : Prop :=
  0 <= range_start r /\ range_start r < range_end r /\ range_end r <= hi.

(** What holds of the silence detector's loop variables before the chunk
    that starts at time [T], for chunks of [len] ms: the closed ranges are
    non-empty and at least one chunk apart, and lie a chunk before the open
    run, respectively before [T]. *)
Definition silence_inv (len T : Z) (st : silence_state) : Prop :=
  StronglySorted (separated_by len) (silence_ranges st)
  /\ Forall (fun r => 0 <= range_start r /\ range_start r < range_end r)
       (silence_ranges st)
  /\ if is_in_silence st
     then 0 <= silence_start_time st /\ silence_start_time st + len <= T
          /\ Forall (fun r => range_end r + len <= silence_start_time st)
               (silence_ranges st)
     else Forall (fun r => range_end r + len <= T) (silence_ranges st).

(** Six chunks of 100 ms (the last one 70 ms): silent, loud, two quiet
    ones, loud, silent. *)
Definition mixed_chunks : list Chunk :=
  [mkChunk 0 0; mkChunk 40 (-20)%Q; mkChunk 5 (-60)%Q; mkChunk 7 (-55)%Q;
   mkChunk 90 (-10)%Q; mkChunk 0 0].

(* ===================================================================== *)
(** * video_tools.py : frame differences and motion statistics            *)
(* ===================================================================== *)

(** A grayscale frame as a NumPy array of [uint8]: a list of rows of pixel
    values.  Rows of one frame have one length. *)
Definition Frame : Type := list (list Z).

(** Python's [int(x)] on a float: truncation toward zero. *)
Definition py_int (x : Q) : Z := Z.quot (Qnum x) (Z.pos (Qden x)).

(** A bound of a Python slice, for a sequence of length [len]: a negative
    bound counts from the end, and the result is clipped to [0, len]. *)
Definition slice_bound (len i : Z) : Z :=
  let i := if i <? 0 then i + len else i in
  Z.max 0 (Z.min len i).

(** [l[a:b]]. *)
Definition py_slice {A : Type} (l : list A) (a b : Z) : list A :=
  let len := Z.of_nat (length l) in
  let lo := slice_bound len a in
  let hi := slice_bound len b in
  firstn (Z.to_nat (hi - lo)) (skipn (Z.to_nat lo) l).

(** [frame.shape[:2]]. *)
Definition frame_shape (frame : Frame) : Z * Z :=
  (Z.of_nat (length frame),
   match frame with [] => 0 | row :: _ => Z.of_nat (length row) end).

(** [frame[top:bottom, left:right]]. *)
Definition crop (frame : Frame) (top bottom left right : Z) : Frame :=
  map (fun row => py_slice row left right) (py_slice frame top bottom).

(** [array.size]: the number of entries. *)
Definition frame_size (frame : Frame) : Z :=
  fold_right (fun row acc => Z.of_nat (length row) + acc) 0 frame.

(** [np.sum(array)]. *)
Definition frame_sum (frame : Frame) : Z :=
  fold_right (fun row acc => fold_right Z.add 0 row + acc) 0 frame.

(** [cv2.absdiff(a, b)] on [uint8] arrays: the entrywise [|a - b|];
    [None] stands for the [cv2.error] raised when the sizes differ. *)
Fixpoint absdiff_row (r1 r2 : list Z) : option (list Z) :=
  match r1, r2 with
  | [], [] => Some []
  | a :: r1', b :: r2' =>
      match absdiff_row r1' r2' with
      | Some r => Some (Z.abs (a - b) :: r)
      | None => None
      end
  | _, _ => None
  end.

Fixpoint absdiff (f1 f2 : Frame) : option Frame :=
  match f1, f2 with
  | [], [] => Some []
  | r1 :: f1', r2 :: f2' =>
      match absdiff_row r1 r2, absdiff f1' f2' with
      | Some r, Some f => Some (r :: f)
      | _, _ => None
      end
  | _, _ => None
  end.

(** [get_central_frame_diff(frame1, frame2, crop_ratio)]; a frame that is
    [None] in Python is [None] here; the result [None] stands for the
    exception of [cv2.absdiff]. *)
Definition get_central_frame_diff (frame1 frame2 : option Frame) (crop_ratio : Q)
    : option Q :=
  match frame1, frame2 with
  | Some frame1, Some frame2 =>
      let '(h, w) := frame_shape frame1 in
      let top := py_int (inject_Z h * crop_ratio) in
      let bottom := py_int (inject_Z h * (1 - crop_ratio)) in
      let left := py_int (inject_Z w * crop_ratio) in
      let right := py_int (inject_Z w * (1 - crop_ratio)) in
      let crop_frame1 := crop frame1 top bottom left right in
      let crop_frame2 := crop frame2 top bottom left right in
      if frame_size crop_frame1 =? 0 then Some 0%Q
      else
        match absdiff crop_frame1 crop_frame2 with
        | Some diff =>
            Some (inject_Z (frame_sum diff) / inject_Z (frame_size crop_frame1))%Q
        | None => None
        end
  | _, _ => Some 0%Q
  end.

(** The differences [_iterate_frames_for_diff] yields for the grayscale,
    downscaled frames of a video, the first frame being [prev_frame_gray]:
    each frame against the one before it. *)
Fixpoint consecutive_diffs (prev_frame_gray : Frame) (frames : list Frame)
    (crop_ratio : Q) : option (list Q) :=
  match frames with
  | [] => Some []
  | frame_gray :: frames' =>
      match get_central_frame_diff (Some prev_frame_gray) (Some frame_gray) crop_ratio,
            consecutive_diffs frame_gray frames' crop_ratio with
      | Some diff, Some diffs => Some (diff :: diffs)
      | _, _ => None
      end
  end.

(** All frames of a video to the yielded differences; a video without a
    first frame yields nothing. *)
Definition frame_diffs (frames : list Frame) (crop_ratio : Q) : option (list Q) :=
  match frames with
  | [] => Some []
  | prev_frame :: frames' => consecutive_diffs prev_frame frames' crop_ratio
  end.

(** [analyze_video_motion]: (min, max, mean, list of differences), for the
    differences [_iterate_frames_for_diff] yields; [np_mean] is [np.mean],
    as in [analyze_audio_dB].  (The progress callback only reports; it is
    left out.) *)
Definition analyze_video_motion (np_mean : list Q -> Q) (video : VideoCapture)
    (motion_diffs : list Q) : Q * Q * Q * list Q :=
  if negb (isOpened video) then (0%Q, 0%Q, 0%Q, [])
  else
    match motion_diffs with
    | [] => (0%Q, 0%Q, 0%Q, [])
    | _ => (list_min motion_diffs, list_max motion_diffs,
            np_mean motion_diffs, motion_diffs)
    end.

(** Pixels of a [uint8] frame. *)
Definition pixels_ok (frame : Frame) : Prop :=
  Forall (Forall (fun p => 0 <= p <= 255)) frame.

(** Two frames of one size. *)
Definition same_shape (f1 f2 : Frame) : Prop :=
  Forall2 (fun r1 r2 : list Z => length r1 = length r2) f1 f2.

(** A small 4 x 4 frame and a brighter copy of it. *)
Definition dark_frame : Frame :=
  [[10; 10; 10; 10]; [10; 20; 30; 10]; [10; 40; 50; 10]; [10; 10; 10; 10]].

Definition bright_frame : Frame :=
  [[10; 10; 10; 10]; [10; 120; 30; 10]; [10; 40; 250; 10]; [10; 10; 10; 10]].

(** What holds of the static-region detector's loop variables before the
    frame with number [N], at frame rate [fps]: the closed ranges are
    non-empty, start after time 0 and lie one after the other, before the
    open run, respectively before frame [N]. *)
Definition static_inv (fps : Q) (N : Z) (st : static_state) : Prop :=
  StronglySorted (fun a b : Q * Q => (snd a < fst b)%Q) (static_ranges st)
  /\ Forall (fun r : Q * Q => (0 < fst r)%Q /\ (fst r < snd r)%Q) (static_ranges st)
  /\ if is_in_static st
     then 1 <= static_start_frame st < N
          /\ Forall (fun r : Q * Q => (snd r < frame_to_ms (static_start_frame st) fps)%Q)
               (static_ranges st)
     else Forall (fun r : Q * Q => (snd r < frame_to_ms N fps)%Q) (static_ranges st).

(* ===================================================================== *)
(** * Reading a filter graph                                              *)
(* ===================================================================== *)

(** The stream label a filter writes to ([vk] or [ak]); the concatenation
    node writes to [outv]/[outa] instead. *)
Definition video_label (f : video_filter) : option nat :=
  match f with
  | VTrim _ _ k | VTrimSpeed _ _ _ k => Some k
  | VConcat _ _ _ => None
  end.

Definition audio_label (f : audio_filter) : option nat :=
  match f with
  | ATrim _ _ k | ATrimSpeed _ _ _ _ k => Some k
  | AConcat _ _ => None
  end.

(** A builder whose bookkeeping is consistent: the counter is the number
    of video filters and of segments, the filters write to the labels
    0, 1, ... in order, those are the concat inputs, and the audio side
    mirrors the video side when there is audio and is empty otherwise. *)
Definition builder_ok (b : _FFmpegFilterBuilder) : Prop :=
  let n := stream_counter b in
  length (segments b) = n
  /\ map video_label (video_filters b) = map Some (seq 0 n)
  /\ v_concat_inputs b = seq 0 n
  /\ if has_audio b
     then a_concat_inputs b = seq 0 n
          /\ map audio_label (audio_filters b) = map Some (seq 0 n)
     else a_concat_inputs b = [] /\ audio_filters b = [].




(** A world in which every FFmpeg step exits with status zero. *)
Definition world_all_fine : World :=
  mkWorld (Some example_video) (fun _ => ExitZero) (fun _ => true).


(** A world whose source file cannot be opened. *)
Definition world_unreadable : World :=
  mkWorld None (fun _ => ExitZero) (fun _ => true).


(* ===================================================================== *)
(** * utils.py : [ensure_unique_filename]                                 *)
(* ===================================================================== *)

(** [f"{counter}"]: the decimal digits of a natural number. *)
Definition str_of_nat (n : nat) : string :=
  DecimalString.NilEmpty.string_of_uint (Nat.to_uint n).

(** [os.path.exists(os.path.join(directory, name))], the directory being
    given by the names of its entries. *)
Definition path_exists (listing : list string) (name : string) : bool :=
  existsb (String.eqb name) listing.

(** [f"{base}_{counter}{ext}"]. *)
Definition numbered (base ext : string) (counter : nat) : string :=
  (base ++ "_" ++ str_of_nat counter ++ ext)%string.

(** The [while os.path.exists(...)] loop of lines 121-123; [None] when the
    fuel runs out before the loop ends. *)
Fixpoint unique_loop (fuel : nat) (listing : list string) (base ext : string)
    (counter : nat) (unique_filename : string) : option string :=
  match fuel with
  | O => None
  | S fuel' =>
      if path_exists listing unique_filename
      then unique_loop fuel' listing base ext (S counter) (numbered base ext counter)
      else Some unique_filename
  end.

(** [ensure_unique_filename(directory, filename)].  [splitext] is
    [os.path.splitext], of the Python library.  The fuel, two more than the
    number of entries, is always enough (see [unique_loop_terminates]). *)
Definition ensure_unique_filename (splitext : string -> string * string)
    (listing : list string) (filename : string) : string :=
  let '(base, ext) := splitext filename in
  match unique_loop (S (S (length listing))) listing base ext 1 filename with
  | Some unique_filename => unique_filename
  | None => filename
  end.

(** A [splitext] for the examples: the extension of ["clip.mp4"]. *)
Definition splitext_mp4 (filename : string) : string * string :=
  if String.eqb filename "clip.mp4" then ("clip"%string, ".mp4"%string)
  else (filename, ""%string).

(* ===================================================================== *)
(** * Reordering ranges with equal starts                                 *)
(* ===================================================================== *)

(** [same_up_to_ties l l']: [l'] is [l] with ranges of equal start
    possibly exchanged. *)
Inductive same_up_to_ties : list TimeRange -> list TimeRange -> Prop :=
| ties_refl (l : list TimeRange) : same_up_to_ties l l
| ties_swap (x y : TimeRange) (l : list TimeRange) :
    range_start x = range_start y ->
    same_up_to_ties (x :: y :: l) (y :: x :: l)
| ties_skip (z : TimeRange) (l l' : list TimeRange) :
    same_up_to_ties l l' -> same_up_to_ties (z :: l) (z :: l')
| ties_trans (l1 l2 l3 : list TimeRange) :
    same_up_to_ties l1 l2 -> same_up_to_ties l2 l3 -> same_up_to_ties l1 l3.

(** A range that merges with any range of the same start: its end, moved
    by the gap tolerance, lies after its start.  Every non-empty range is
    one when the tolerance is not negative. *)
Definition reaches_itself (g : Z) (r : TimeRange) : Prop :=
  range_start r < range_end r + g.

(** [merge_and_optimize_ranges] after its sort: the loop started from the
    first range. *)
Definition merge_sorted (d g : Z) (l : list TimeRange) : list TimeRange :=
  match l with
  | [] => []
  | (cs, ce) :: rest => merge_loop d g cs ce rest []
  end.

(* ===================================================================== *)
(** * business_logic.py : planning and progress                           *)
(* ===================================================================== *)

(** The detection target chosen in the GUI: ["音声"] (audio), ["映像"]
    (video) or ["映像音声"] (both). *)
Inductive cut_mode : Type := AudioMode | VideoMode | BothMode.

(** Lines 143-148 of [process_video]: the ranges to process, from the
    detected silence and static ranges.  The calls leave [gap_ms] at its
    default; the second stage of the combined mode passes [100] as
    [min_duration_ms]. *)
Definition plan_ranges (mode : cut_mode) (silence_ranges static_ranges : list TimeRange)
    (min_silence_duration_ms min_static_duration_ms : Z) : list TimeRange :=
  match mode with
  | AudioMode =>
      merge_and_optimize_ranges silence_ranges min_silence_duration_ms default_gap_ms
  | VideoMode =>
      merge_and_optimize_ranges static_ranges min_static_duration_ms default_gap_ms
  | BothMode =>
      let merged_silence :=
        merge_and_optimize_ranges silence_ranges min_silence_duration_ms default_gap_ms in
      let merged_static :=
        merge_and_optimize_ranges static_ranges min_static_duration_ms default_gap_ms in
      merge_and_optimize_ranges (merged_silence ++ merged_static) 100 default_gap_ms
  end.

(** [inner_callback] of [progress_wrapper] (lines 51-56 of
    [analyze_media]): the value handed on to the outer callback,
    [base_progress + (value / maximum) * total_range]; [None] stands for the
    [ZeroDivisionError] of [value / 0]. *)
Definition progress_value (base_progress total_range : Q) (value maximum : Z)
    : option Q :=
  if maximum =? 0 then None
  else Some (base_progress + (inject_Z value / inject_Z maximum) * total_range)%Q.

(* ===================================================================== *)
(** * Properties of the range merger                                      *)
(* ===================================================================== *)

Section RangeMerger.

Variables (d g : Z).

Lemma insert_by_start_lower r l lo :
  lo <= range_start r -> Forall (fun x => lo <= range_start x) l ->
  Forall (fun x => lo <= range_start x) (insert_by_start r l).
Proof.
  intros Hr Hl. induction Hl as [|h t Hh Ht IH]; simpl.
  - constructor; [exact Hr | constructor].
  - destruct (range_start r <=? range_start h).
    + constructor; [exact Hr|]. constructor; assumption.
    + constructor; assumption.
Qed.

Lemma insert_by_start_sorted r l :
  StronglySorted start_le l -> StronglySorted start_le (insert_by_start r l).
Proof.
  induction 1 as [|h t Ht IH Hh]; simpl.
  - constructor; constructor.
  - destruct (Z.leb_spec (range_start r) (range_start h)) as [Hle|Hgt].
    + constructor.
      * constructor; assumption.
      * constructor; [exact Hle|].
        eapply Forall_impl; [|exact Hh]. unfold start_le. intros; lia.
    + constructor; [exact IH|].
      apply insert_by_start_lower; [lia | exact Hh].
Qed.

Lemma sorted_by_start_sorted l : StronglySorted start_le (sorted_by_start l).
Proof.
  induction l as [|r l IH]; simpl.
  - constructor.
  - apply insert_by_start_sorted, IH.
Qed.

(** Sorting a list that is already in order returns it as it is. *)
Lemma sorted_by_start_fixed l :
  StronglySorted start_le l -> sorted_by_start l = l.
Proof.
  induction 1 as [|h t Ht IH Hh]; simpl; [reflexivity|].
  rewrite IH. destruct Hh as [|x t' Hx _]; simpl; [reflexivity|].
  unfold start_le in Hx.
  destruct (Z.leb_spec (range_start h) (range_start x)); [reflexivity | lia].
Qed.

(** The accumulator is only ever appended to. *)
Lemma merge_loop_acc rest : forall cs ce acc,
  merge_loop d g cs ce rest acc = acc ++ merge_loop d g cs ce rest [].
Proof.
  induction rest as [|[ns ne] rest IH]; intros cs ce acc; simpl.
  - destruct (ce - cs >=? d); [reflexivity | now rewrite app_nil_r].
  - destruct (ns <? ce + g).
    + apply IH.
    + destruct (ce - cs >=? d).
      * rewrite (IH ns ne (acc ++ [(cs, ce)])), (IH ns ne [(cs, ce)]).
        now rewrite <- app_assoc.
      * apply IH.
Qed.

Lemma emitted_ok_weaken lo lo' out :
  lo' <= lo -> emitted_ok d g lo out -> emitted_ok d g lo' out.
Proof.
  intros Hlo (Ha & Hb & Hc). repeat split; try assumption.
  eapply Forall_impl; [|exact Ha]. simpl. intros; lia.
Qed.

Lemma emitted_ok_cons cs ce ns out :
  d <= ce - cs -> cs <= ns -> ce + g <= ns ->
  emitted_ok d g ns out -> emitted_ok d g cs ((cs, ce) :: out).
Proof.
  intros Hd Hs Hg (Ha & Hb & Hc). repeat split.
  - constructor.
    + unfold duration, range_start, range_end; simpl; lia.
    + eapply Forall_impl; [|exact Ha]. simpl. intros; lia.
  - constructor; [exact Hb|].
    eapply Forall_impl; [|exact Ha]. unfold start_le, range_start. simpl. intros; lia.
  - constructor; [exact Hc|].
    eapply Forall_impl; [|exact Ha].
    unfold separated_by, range_start, range_end. simpl. intros; lia.
Qed.

Lemma merge_loop_emitted rest : forall cs ce,
  StronglySorted start_le rest ->
  Forall (fun r => cs <= range_start r) rest ->
  emitted_ok d g cs (merge_loop d g cs ce rest []).
Proof.
  induction rest as [|[ns ne] rest IH]; intros cs ce Hs Hlo; simpl.
  - destruct (Z.geb_spec (ce - cs) d) as [Hd|Hd].
    + repeat split; repeat constructor;
        unfold duration, range_start, range_end; simpl; lia.
    + repeat split; constructor.
  - inversion Hs as [|? ? Hs' Hns]; subst.
    inversion Hlo as [|? ? Hcs Hlo']; subst.
    unfold range_start in Hcs; simpl in Hcs.
    destruct (Z.ltb_spec ns (ce + g)) as [Hm|Hm].
    + apply IH; assumption.
    + assert (Hnext : emitted_ok d g ns (merge_loop d g ns ne rest [])).
      { apply IH; [exact Hs'|]. exact Hns. }
      destruct (Z.geb_spec (ce - cs) d) as [Hd|Hd].
      * rewrite merge_loop_acc. simpl.
        apply emitted_ok_cons with (ns := ns); try assumption; lia.
      * apply emitted_ok_weaken with (lo := ns); assumption.
Qed.

Lemma merge_emitted ranges :
  exists lo, emitted_ok d g lo (merge_and_optimize_ranges ranges d g).
Proof.
  unfold merge_and_optimize_ranges.
  destruct ranges as [|r0 ranges0].
  - exists 0. repeat split; constructor.
  - pose proof (sorted_by_start_sorted (r0 :: ranges0)) as Hs.
    destruct (sorted_by_start (r0 :: ranges0)) as [|[cs ce] rest].
    + exists 0. repeat split; constructor.
    + exists cs. inversion Hs; subst. apply merge_loop_emitted; assumption.
Qed.

(** A list that already has the shape of an output passes through the
    loop unchanged. *)
Lemma merge_loop_fixed rest : forall cs ce,
  d <= ce - cs ->
  Forall (fun r => d <= duration r) rest ->
  StronglySorted (separated_by g) ((cs, ce) :: rest) ->
  merge_loop d g cs ce rest [] = (cs, ce) :: rest.
Proof.
  induction rest as [|[ns ne] rest IH]; intros cs ce Hd Hall Hsep; simpl.
  - destruct (Z.geb_spec (ce - cs) d); [reflexivity | lia].
  - inversion Hsep as [|? ? Hsep' Hhd]; subst.
    inversion Hhd as [|? ? Hgap _]; subst.
    inversion Hall as [|? ? Hdn Hall']; subst.
    unfold separated_by, range_start, range_end in Hgap; simpl in Hgap.
    unfold duration, range_start, range_end in Hdn; simpl in Hdn.
    destruct (Z.ltb_spec ns (ce + g)); [lia|].
    destruct (Z.geb_spec (ce - cs) d); [|lia].
    rewrite merge_loop_acc. simpl. f_equal.
    apply IH; assumption.
Qed.

End RangeMerger.

(** The worked examples of the specification. *)
Example merge_example_near :
  merge_and_optimize_ranges [(0, 100); (150, 300)] 50 100 = [(0, 300)].
Proof. reflexivity. Qed.

Example merge_example_far :
  merge_and_optimize_ranges [(0, 100); (300, 400)] 50 100 = [(0, 100); (300, 400)].
Proof. reflexivity. Qed.

Example merge_example_short :
  merge_and_optimize_ranges [(0, 30)] 50 100 = [].
Proof. reflexivity. Qed.

Example merge_example_unsorted :
  merge_and_optimize_ranges [(900, 1700); (0, 600); (550, 800)]
    default_min_duration_ms default_gap_ms
  = [(0, 800); (900, 1700)].
Proof. reflexivity. Qed.

(** C5. For every list of time ranges, in any order and overlapping or not,
    and every minimum duration [d] and gap tolerance [g >= 0], each range
    returned by [merge_and_optimize_ranges] lasts at least [d], the returned
    ranges are in ascending order of start, and any two of them are
    disjoint.  (Neither [d >= 0] nor well-formed input ranges are needed.) *)
Theorem merge_output_long_sorted_disjoint (ranges : list TimeRange) (d g : Z) :
  0 <= g ->
  let out := merge_and_optimize_ranges ranges d g in
  Forall (fun r => d <= duration r) out
  /\ StronglySorted start_le out
  /\ ForallOrdPairs disjoint out.
Proof.
  intros Hg out.
  destruct (merge_emitted d g ranges) as (lo & Ha & Hb & Hc). fold out in Ha, Hb, Hc.
  split; [|split].
  - eapply Forall_impl; [|exact Ha]. simpl. intros r [_ H]; exact H.
  - exact Hb.
  - clear Ha Hb. induction Hc as [|a l Hl IH Ha]; constructor.
    + eapply Forall_impl; [|exact Ha].
      intros b Hab. left. unfold separated_by in Hab. unfold ends_before. lia.
    + exact IH.
Qed.

Lemma merge_output_long_sorted_disjoint_witness :
  let out := merge_and_optimize_ranges [(700, 1500); (0, 400); (450, 800); (5000, 5100)] 500 100 in
  out = [(0, 1500)]
  /\ Forall (fun r => 500 <= duration r) out
  /\ StronglySorted start_le out
  /\ ForallOrdPairs disjoint out.
Proof.
  split; [reflexivity|].
  apply (merge_output_long_sorted_disjoint
           [(700, 1500); (0, 400); (450, 800); (5000, 5100)] 500 100).
  lia.
Defined.

(** C6. [merge_and_optimize_ranges] is idempotent: for every list of ranges
    and every [d] and [g], merging the output again with the same [d] and
    [g] returns that output unchanged. *)
Theorem merge_idempotent (ranges : list TimeRange) (d g : Z) :
  merge_and_optimize_ranges (merge_and_optimize_ranges ranges d g) d g
  = merge_and_optimize_ranges ranges d g.
Proof.
  destruct (merge_emitted d g ranges) as (lo & Ha & Hb & Hc).
  set (out := merge_and_optimize_ranges ranges d g) in *.
  unfold merge_and_optimize_ranges at 1.
  destruct out as [|[cs ce] rest] eqn:Hout; [reflexivity|].
  rewrite (sorted_by_start_fixed _ Hb).
  inversion Ha as [|? ? [_ Hd0] Hrest]; subst.
  apply merge_loop_fixed.
  - exact Hd0.
  - eapply Forall_impl; [|exact Hrest]. simpl. intros r [_ H]; exact H.
  - exact Hc.
Qed.

(* ===================================================================== *)
(** * Properties of the loudness analyzer and the silence detector        *)
(* ===================================================================== *)

Lemma Qgtb_true_iff (x y : Q) : Qgtb x y = true <-> (y < x)%Q.
Proof.
  unfold Qgtb, Qltb. rewrite negb_true_iff. split.
  - intros H. apply Qnot_le_lt. intros Hle.
    apply Qle_bool_iff in Hle. congruence.
  - intros H. destruct (Qle_bool x y) eqn:E; [|reflexivity].
    apply Qle_bool_iff in E. exfalso. exact (Qlt_not_le _ _ H E).
Qed.

Lemma Qltb_true_iff (x y : Q) : Qltb x y = true <-> (x < y)%Q.
Proof. exact (Qgtb_true_iff y x). Qed.

Lemma Qgtb_false_iff (x y : Q) : Qgtb x y = false <-> ~ (y < x)%Q.
Proof.
  rewrite <- Qgtb_true_iff. destruct (Qgtb x y); split; intros; congruence.
Qed.

Section Audio.

Lemma list_assign_middle {A : Type} (pre : list A) (x v : A) (post : list A) :
  list_assign (pre ++ x :: post) (length pre) v = pre ++ v :: post.
Proof.
  induction pre as [|p pre IH]; simpl; [reflexivity | now rewrite IH].
Qed.

Lemma loudness_fold (chunks : list Chunk) : forall pre : list Q,
  fold_left loudness_step
    (combine (seq (length pre) (length chunks)) chunks)
    (pre ++ repeat floor_dB (length chunks))
  = pre ++ map chunk_loudness chunks.
Proof.
  induction chunks as [|c chunks IH]; intros pre; simpl.
  - reflexivity.
  - specialize (IH (pre ++ [chunk_loudness c])).
    rewrite length_app, Nat.add_1_r, <- !app_assoc in IH. simpl in IH.
    rewrite <- IH. f_equal.
    unfold chunk_loudness. destruct (rms c >? 0); [|reflexivity].
    apply list_assign_middle.
Qed.

(** The index-by-index filling of lines 22-25 records, for each chunk in
    order, its loudness. *)
Lemma chunk_loudness_list_map (chunks : list Chunk) :
  chunk_loudness_list chunks = map chunk_loudness chunks.
Proof. exact (loudness_fold chunks []). Qed.

Lemma filter_none {A : Type} (f : A -> bool) (l : list A) :
  Forall (fun x => f x = false) l -> filter f l = [].
Proof.
  induction 1 as [|x l Hx _ IH]; simpl; [reflexivity | now rewrite Hx].
Qed.

(** When some chunk is louder than the floor, the samples returned are the
    full per-chunk list. *)
Lemma analyze_audible_samples (np_mean : list Q -> Q) (chunks : list Chunk) :
  Exists (fun c => (floor_dB < chunk_loudness c)%Q) chunks ->
  snd (analyze_audio_dB np_mean chunks) = map chunk_loudness chunks.
Proof.
  intros Hex. unfold analyze_audio_dB. rewrite chunk_loudness_list_map.
  destruct (filter _ (map chunk_loudness chunks)) as [|v vs] eqn:E; [|reflexivity].
  exfalso. apply Exists_exists in Hex. destruct Hex as (c & Hin & Hc).
  assert (Hf : In (chunk_loudness c)
                 (filter (fun db => Qgtb db floor_dB) (map chunk_loudness chunks))).
  { apply filter_In. split; [now apply in_map | now apply Qgtb_true_iff]. }
  rewrite E in Hf. exact Hf.
Qed.

Lemma silent_stays (thresh : Q) (len : Z) (l : list (nat * Chunk)) :
  forall (s : Z) (r : list TimeRange),
  Forall (fun ic => is_silent_chunk thresh (snd ic) = true) l ->
  fold_left (silence_step thresh len) l (mkSilence true s r) = mkSilence true s r.
Proof.
  induction l as [|[i c] l IH]; intros s r Hall; simpl; [reflexivity|].
  inversion Hall as [|? ? Hc Hl]; subst. simpl in Hc.
  rewrite Hc. simpl. now apply IH.
Qed.

Lemma Forall_combine_snd {A B : Type} (P : B -> Prop) (bs : list B) :
  Forall P bs -> forall as_ : list A, Forall (fun ab => P (snd ab)) (combine as_ bs).
Proof.
  induction 1 as [|b bs Hb _ IH]; intros [|a as_]; simpl; constructor; auto.
Qed.

Lemma is_silent_chunk_true (thresh : Q) (c : Chunk) :
  rms c = 0 \/ (dBFS c < thresh)%Q -> is_silent_chunk thresh c = true.
Proof.
  intros [H0|Hlt]; unfold is_silent_chunk.
  - rewrite H0. reflexivity.
  - destruct (rms c >? 0); [now apply Qltb_true_iff | reflexivity].
Qed.

End Audio.

(** A run of the analyzer with one audible chunk: statistics over the
    audible chunk only, samples for every chunk. *)
Example analyze_one_audible (np_mean : list Q -> Q) :
  analyze_audio_dB np_mean [mkChunk 0 0; mkChunk 40 (-20)%Q; mkChunk 0 0]
  = ((-20)%Q, (-20)%Q, np_mean [(-20)%Q], [floor_dB; (-20)%Q; floor_dB]).
Proof. reflexivity. Qed.

(** A run of the detector over silent, loud, silent: a range closed by the
    loud chunk and a range closed by the end of the audio. *)
Example detect_silence_two_runs :
  detect_silence_based_on_dB
    [mkChunk 0 0; mkChunk 40 (-20)%Q; mkChunk 5 (-60)%Q] 250 (-40)%Q 100
  = [(0, 100); (200, 250)].
Proof. reflexivity. Qed.

(** C1 (as the code has it). When no chunk is louder than the floor of
    -90 dB, [analyze_audio_dB] returns min = max = mean = floor and an EMPTY
    sample list, whatever the number of chunks (and whatever [np.mean]
    computes: it is not called). *)
Theorem analyze_all_floor_returns_empty (np_mean : list Q -> Q) (chunks : list Chunk) :
  Forall (fun c => ~ (floor_dB < chunk_loudness c)%Q) chunks ->
  analyze_audio_dB np_mean chunks = (floor_dB, floor_dB, floor_dB, []).
Proof.
  intros Hall. unfold analyze_audio_dB. rewrite chunk_loudness_list_map.
  rewrite filter_none; [reflexivity|].
  apply Forall_map. eapply Forall_impl; [|exact Hall].
  intros c Hc. now apply Qgtb_false_iff.
Qed.

Lemma analyze_all_floor_returns_empty_witness :
  analyze_audio_dB exact_mean three_quiet_chunks = (floor_dB, floor_dB, floor_dB, []).
Proof.
  apply (analyze_all_floor_returns_empty exact_mean three_quiet_chunks).
  repeat constructor; intros H; apply Qgtb_true_iff in H; vm_compute in H; discriminate.
Defined.

(** C1 as stated fails: for one chunk of digital silence no loudness is
    above the floor, yet the returned sample list has length 0, not 1. *)
Lemma analyze_all_floor_samples_not_per_chunk :
  let chunks := [mkChunk 0 0] in
  Forall (fun c => ~ (floor_dB < chunk_loudness c)%Q) chunks
  /\ ~ (let '(mn, mx, mean, samples) := analyze_audio_dB exact_mean chunks in
        mn = floor_dB /\ mx = floor_dB /\ mean = floor_dB
        /\ length samples = length chunks).
Proof.
  split.
  - repeat constructor. intros H. apply Qgtb_true_iff in H. vm_compute in H. discriminate.
  - vm_compute. intros (_ & _ & _ & H). discriminate.
Qed.

(** C9. For every non-empty chunk sequence in which every chunk is silent
    (zero energy, or loudness below the threshold), the silence detector
    returns exactly one range, from 0 to the total duration of the audio. *)
Theorem detect_silence_all_silent (chunks : list Chunk) (audio_len : Z)
    (silence_thresh_dB : Q) (chunk_length_ms : Z) :
  chunks <> [] ->
  Forall (fun c => rms c = 0 \/ (dBFS c < silence_thresh_dB)%Q) chunks ->
  detect_silence_based_on_dB chunks audio_len silence_thresh_dB chunk_length_ms
  = [(0, audio_len)].
Proof.
  intros Hne Hall. destruct chunks as [|c chunks]; [congruence|].
  assert (Hs : Forall (fun c => is_silent_chunk silence_thresh_dB c = true) (c :: chunks)).
  { eapply Forall_impl; [|exact Hall]. intros; now apply is_silent_chunk_true. }
  inversion Hs as [|? ? Hc Hrest]; subst.
  unfold detect_silence_based_on_dB, enumerate. simpl.
  rewrite Hc. simpl.
  rewrite silent_stays; [reflexivity|].
  exact (Forall_combine_snd
           (fun c => is_silent_chunk silence_thresh_dB c = true) chunks Hrest _).
Qed.

Lemma detect_silence_all_silent_witness :
  detect_silence_based_on_dB
    [mkChunk 0 0; mkChunk 12 (-60)%Q; mkChunk 0 0] 250 (-40)%Q 100
  = [(0, 250)].
Proof.
  apply (detect_silence_all_silent
           [mkChunk 0 0; mkChunk 12 (-60)%Q; mkChunk 0 0] 250 (-40)%Q 100).
  - discriminate.
  - apply Forall_cons; [left; reflexivity|].
    apply Forall_cons; [right; reflexivity|].
    apply Forall_cons; [left; reflexivity|].
    apply Forall_nil.
Defined.

(* ===================================================================== *)
(** * Properties of the frame-rate fallback                               *)
(* ===================================================================== *)

Section FrameRate.

Lemma fps_or_fallback_nonpositive (f : Q) :
  ~ (0 < f)%Q -> fps_or_fallback f = 30%Q.
Proof.
  intros H. unfold fps_or_fallback.
  now rewrite (proj2 (Qgtb_false_iff f 0) H).
Qed.

Lemma fps_or_fallback_positive (f : Q) :
  (0 < f)%Q -> fps_or_fallback f = f.
Proof.
  intros H. unfold fps_or_fallback.
  now rewrite (proj2 (Qgtb_true_iff f 0) H).
Qed.

(** The divisor of [frame_to_ms] is never zero or negative. *)
Lemma fps_or_fallback_pos (f : Q) : (0 < fps_or_fallback f)%Q.
Proof.
  unfold fps_or_fallback. destruct (Qgtb f 0) eqn:E.
  - now apply Qgtb_true_iff.
  - reflexivity.
Qed.

Lemma builder_fps_fallback (video_fps : option Q) :
  video_fps = None \/ (exists f, video_fps = Some f /\ ~ (0 < f)%Q) ->
  builder_fps video_fps = 30%Q.
Proof.
  intros [->|(f & -> & Hf)]; simpl; [reflexivity|].
  rewrite (proj2 (Qgtb_false_iff f 0) Hf), andb_false_r. reflexivity.
Qed.

Lemma builder_fps_pos (video_fps : option Q) : (0 < builder_fps video_fps)%Q.
Proof.
  destruct video_fps as [f|]; simpl; [|reflexivity].
  destruct (Qgtb f 0) eqn:E; rewrite ?andb_false_r; [|reflexivity].
  destruct (negb (Qeq_bool f 0)); simpl; [now apply Qgtb_true_iff | reflexivity].
Qed.

Lemma add_clip_fps b s e : fps (add_clip b s e) = fps b.
Proof. unfold add_clip. destruct (s >=? e); reflexivity. Qed.

Lemma add_speedup_clip_fps b s e f v : fps (add_speedup_clip b s e f v) = fps b.
Proof. unfold add_speedup_clip. destruct (s >=? e); reflexivity. Qed.

Lemma chunk_loop_fps mode pre post f v ranges : forall b last,
  fps (fst (fold_left (chunk_step mode pre post f v) ranges (b, last))) = fps b.
Proof.
  induction ranges as [|[s e] ranges IH]; intros b last; simpl; [reflexivity|].
  rewrite IH. destruct mode; rewrite ?add_speedup_clip_fps; apply add_clip_fps.
Qed.

Lemma _process_chunk_builder_fps video ranges mode pre post dur config :
  fps (_process_chunk_builder video ranges mode pre post dur config)
  = builder_fps (clip_fps video).
Proof.
  unfold _process_chunk_builder.
  match goal with
  | |- context [fold_left ?step ranges ?init] =>
      pose proof (chunk_loop_fps mode (pre * 1000) (post * 1000)
                    (speedup_factor config) (speedup_volume_percent config / 100)%Q
                    ranges (builder_init (clip_has_audio video) (builder_fps (clip_fps video))) 0) as H;
      destruct (fold_left step ranges init) as [b last]
  end.
  simpl in H. rewrite add_clip_fps. exact H.
Qed.

End FrameRate.

(** C10. When the source reports a frame rate that is zero or negative
    (OpenCV reports 0 when it has none) or, for the filter builder, none at
    all, the static-region detector converts frames to milliseconds as for
    30 fps, with a positive divisor, and the fast-path builder fixes the
    output frame rate to 30. *)
Theorem frame_rate_fallback_30 (video : VideoCapture) (movement_thresh : Q)
    (diffs : list Q) (clip : VideoFileClip) (ranges : list TimeRange)
    (mode : processing_mode) (pre post dur : Z) (config : Config) :
  ~ (0 < CAP_PROP_FPS video)%Q ->
  clip_fps clip = None \/ (exists f, clip_fps clip = Some f /\ ~ (0 < f)%Q) ->
  detect_central_static_frames video movement_thresh diffs
  = detect_central_static_frames
      (mkCapture (isOpened video) 30 (frame_count video)) movement_thresh diffs
  /\ fps_or_fallback (CAP_PROP_FPS video) = 30%Q
  /\ (0 < fps_or_fallback (CAP_PROP_FPS video))%Q
  /\ fps (_process_chunk_builder clip ranges mode pre post dur config) = 30%Q.
Proof.
  intros Hv Hc. split; [|split; [|split]].
  - unfold detect_central_static_frames. simpl.
    rewrite (fps_or_fallback_nonpositive _ Hv).
    rewrite (fps_or_fallback_positive 30); reflexivity.
  - now apply fps_or_fallback_nonpositive.
  - apply fps_or_fallback_pos.
  - rewrite _process_chunk_builder_fps. now apply builder_fps_fallback.
Qed.

Lemma frame_rate_fallback_30_witness :
  detect_central_static_frames (mkCapture true 0 4) 2 [1; 1; 5]%Q
  = [(frame_to_ms 1 30, frame_to_ms 3 30)]
  /\ fps (_process_chunk_builder (mkClip (Some (-1)%Q) true 60000)
            [(10000, 20000)] ModeCut 2 1 60000
            (mkConfig true 5 50 ["libx264"%string])) = 30%Q.
Proof.
  destruct (frame_rate_fallback_30 (mkCapture true 0 4) 2 [1; 1; 5]%Q
              (mkClip (Some (-1)%Q) true 60000) [(10000, 20000)] ModeCut 2 1 60000
              (mkConfig true 5 50 ["libx264"%string])) as (H1 & _ & _ & H4).
  - intros H; vm_compute in H; discriminate.
  - right. exists (-1)%Q. split; [reflexivity|].
    intros H; vm_compute in H; discriminate.
  - split; [|exact H4]. rewrite H1. reflexivity.
Defined.

(* ===================================================================== *)
(** * Properties of the atempo chain                                      *)
(* ===================================================================== *)

Section Atempo.

Lemma stage_product_app (l1 l2 : list Q) :
  (stage_product (l1 ++ l2) == stage_product l1 * stage_product l2)%Q.
Proof.
  induction l1 as [|x l1 IH]; simpl.
  - ring.
  - rewrite IH. ring.
Qed.






End Atempo.

Example atempo_chain_of_5 : Forall2 Qeq (_build_atempo_chain 5) [5%Q].
Proof. vm_compute. repeat constructor. Qed.

(** Four decimals: a tie goes to the even neighbour, and a factor just
    above 1 is emitted as [1.0000]. *)
Example format_4f_examples :
  format_4f 5.234567 = (52346 # 10000)%Q
  /\ format_4f 2.53125 = (25312 # 10000)%Q
  /\ format_4f 2.53135 = (25314 # 10000)%Q
  /\ _build_atempo_chain 1.00004 = [(10000 # 10000)%Q].
Proof. repeat split. Qed.

Example atempo_chain_of_1 : _build_atempo_chain 1 = [].
Proof. reflexivity. Qed.

Example atempo_chain_of_10000 :
  Forall2 Qeq (_build_atempo_chain 10000) [100; 100]%Q.
Proof. vm_compute. repeat constructor. Qed.

(** C7 (as the code has it). A speed factor of 250 with the stage cap of
    100 gives the two stages 100 and 2.5, and the product of the stages is
    the requested factor 250. *)
Theorem atempo_chain_250 :
  Forall2 Qeq (_build_atempo_chain 250) [100; 2.5]%Q
  /\ (stage_product (_build_atempo_chain 250) == 250)%Q.
Proof.
  split.
  - vm_compute. repeat constructor.
  - vm_compute. reflexivity.
Qed.

(** C7 as stated fails: the chain for 250 is not [100, 100, 25] (whose
    product would be 250000). *)
Lemma atempo_chain_250_not_three_stages :
  ~ Forall2 Qeq (_build_atempo_chain 250) [100; 100; 25]%Q.
Proof.
  vm_compute. intros H.
  inversion H as [|? ? ? ? _ H1]; subst.
  inversion H1 as [|? ? ? ? H2 _]; subst.
  vm_compute in H2. discriminate.
Qed.

(* ===================================================================== *)
(** * Properties of the filter graph                                      *)
(* ===================================================================== *)

Section FilterGraph.

Lemma segments_add_clip b s e :
  segments (add_clip b s e)
  = segments b ++ (if s >=? e then [] else [PASSTHROUGH s e]).
Proof.
  unfold add_clip, segments. destruct (s >=? e); simpl.
  - now rewrite app_nil_r.
  - now rewrite flat_map_app.
Qed.

Lemma segments_add_speedup_clip b s e f v :
  segments (add_speedup_clip b s e f v)
  = segments b ++ (if s >=? e then [] else [TRANSFORM s e f]).
Proof.
  unfold add_speedup_clip, segments. destruct (s >=? e); simpl.
  - now rewrite app_nil_r.
  - now rewrite flat_map_app.
Qed.

Lemma tiles_app (l1 l2 : list segment) : forall a b c,
  tiles a b l1 -> tiles b c l2 -> tiles a c (l1 ++ l2).
Proof.
  induction l1 as [|s l1 IH]; intros a b c H1 H2; simpl in *.
  - now subst.
  - destruct H1 as (Hs & Hlt & Hrest). repeat split; try assumption.
    now apply IH with (b := b).
Qed.

Lemma tiles_total (l : list segment) : forall a b,
  tiles a b l -> total_duration l = b - a.
Proof.
  induction l as [|s l IH]; intros a b H; simpl in *.
  - lia.
  - destruct H as (Hs & _ & Hrest). rewrite (IH _ _ Hrest).
    unfold seg_duration. lia.
Qed.

(** A clip from [a] to [b] tiles [a, b); a dropped one needs [a = b]. *)
Lemma tiles_clip a b :
  a <= b -> tiles a b (if a >=? b then [] else [PASSTHROUGH a b]).
Proof.
  intros H. destruct (Z.geb_spec a b); simpl; lia.
Qed.

Lemma tiles_speedup a b f :
  a < b -> tiles a b (if a >=? b then [] else [TRANSFORM a b f]).
Proof.
  intros H. destruct (Z.geb_spec a b); simpl; lia.
Qed.

(** The loop of [_process_chunk] in speed-up mode without post-margin
    keeps the segments a tiling of [0, last_end_ms). *)
Lemma speedup_loop_tiles pre f v total (plan : list TimeRange) :
  0 <= pre ->
  forall b last,
  tiles 0 last (segments b) ->
  margin_fits pre last total plan ->
  let st := fold_left (chunk_step ModeSpeedup pre 0 f v) plan (b, last) in
  tiles 0 (snd st) (segments (fst st)) /\ snd st <= total.
Proof.
  intros Hpre. induction plan as [|[s e] plan IH]; intros b last Ht Hfit; simpl in *.
  - split; assumption.
  - destruct Hfit as (Hfrom & Hse & Hrest).
    apply IH; [|exact Hrest].
    rewrite segments_add_speedup_clip, segments_add_clip.
    rewrite Z.add_0_r.
    apply tiles_app with (b := s - pre).
    + apply tiles_app with (b := last); [exact Ht|].
      apply tiles_clip. lia.
    + apply tiles_speedup. lia.
Qed.

End FilterGraph.

(** C2 (as the code has it). In cut mode, for a 60000 ms source with plan
    [(10000, 20000)], pre-margin 2 s and post-margin 1 s, both render paths
    keep exactly the stretches [0, 8000) and [20000, 60000): the pre-margin
    is subtracted from the range start, and the stretch after the cut
    starts at the range end itself.  (No [subclip] call of the MoviePy path
    raises on the way.) *)
Theorem cut_example_segments (fps : option Q) (audio : bool) (config : Config)
    (speedup_factor speedup_volume : Q) :
  segments (_process_chunk_builder (mkClip fps audio 60000)
              example_plan ModeCut 2 1 60000 config)
  = [PASSTHROUGH 0 8000; PASSTHROUGH 20000 60000]
  /\ moviepy_clips (mkClip fps audio 60000) example_plan ModeCut 2 1
       speedup_factor speedup_volume
     = [Subclip 0 8000; Subclip 20000 60000]
  /\ moviepy_raises (mkClip fps audio 60000) example_plan ModeCut 2 1
       speedup_factor speedup_volume
     = false.
Proof.
  split; [|split].
  - reflexivity.
  - reflexivity.
  - reflexivity.
Qed.

(** C2 as stated fails: the second passthrough segment does not start at
    21000. *)
Lemma cut_example_not_from_21000 :
  segments (_process_chunk_builder (mkClip (Some 30%Q) true 60000)
              example_plan ModeCut 2 1 60000
              (mkConfig true 5 50 ["libx264"%string]))
  <> [PASSTHROUGH 0 8000; PASSTHROUGH 21000 60000].
Proof. vm_compute. discriminate. Qed.

(** C4 (as the code has it). In speed-up mode with no post-margin, for
    every plan whose ranges are ordered, non-empty and within the source and
    whose pre-margin fits in front of each range (with no pre-margin: every
    valid plan), the emitted segments tile [0, total_duration): each starts
    where the one before ends, from 0 to the total duration, and their
    durations add up to the total duration. *)
Theorem speedup_segments_tile (video : VideoFileClip) (plan : list TimeRange)
    (pre_cut_seconds video_duration_ms : Z) (config : Config) :
  0 <= pre_cut_seconds ->
  margin_fits (pre_cut_seconds * 1000) 0 video_duration_ms plan ->
  let segs := segments (_process_chunk_builder video plan ModeSpeedup
                          pre_cut_seconds 0 video_duration_ms config) in
  tiles 0 video_duration_ms segs /\ total_duration segs = video_duration_ms.
Proof.
  intros Hpre Hfit segs.
  assert (Ht : tiles 0 video_duration_ms segs).
  { subst segs. unfold _process_chunk_builder.
    pose proof (speedup_loop_tiles (pre_cut_seconds * 1000)
                  (speedup_factor config) (speedup_volume_percent config / 100)%Q
                  video_duration_ms plan ltac:(lia)
                  (builder_init (clip_has_audio video) (builder_fps (clip_fps video)))
                  0 eq_refl Hfit) as H.
    change (0 * 1000) with 0.
    destruct (fold_left _ plan _) as [b last]. simpl in H. destruct H as [H Hle].
    rewrite segments_add_clip.
    apply tiles_app with (b := last); [exact H|].
    now apply tiles_clip. }
  split; [exact Ht|].
  rewrite (tiles_total _ _ _ Ht). lia.
Qed.

Lemma speedup_segments_tile_witness :
  let segs := segments (_process_chunk_builder (mkClip (Some 30%Q) true 60000)
                          [(10000, 20000); (20000, 30000); (45000, 50000)]
                          ModeSpeedup 0 0 60000
                          (mkConfig true 5 50 ["libx264"%string])) in
  segs = [PASSTHROUGH 0 10000; TRANSFORM 10000 20000 5; TRANSFORM 20000 30000 5;
          PASSTHROUGH 30000 45000; TRANSFORM 45000 50000 5;
          PASSTHROUGH 50000 60000]
  /\ valid_plan 60000 [(10000, 20000); (20000, 30000); (45000, 50000)]
  /\ tiles 0 60000 segs /\ total_duration segs = 60000.
Proof.
  assert (Hv : valid_plan 60000 [(10000, 20000); (20000, 30000); (45000, 50000)]).
  { unfold valid_plan. simpl. lia. }
  split; [reflexivity|]. split; [exact Hv|].
  apply (speedup_segments_tile (mkClip (Some 30%Q) true 60000)
           [(10000, 20000); (20000, 30000); (45000, 50000)] 0 60000
           (mkConfig true 5 50 ["libx264"%string])).
  - lia.
  - exact Hv.
Defined.

(** C4 as stated fails.  In cut mode the plan ranges are left out, so the
    segments of a valid plan do not add up to the total duration; and in
    speed-up mode with a post-margin the transformed segment and the
    passthrough segment after it overlap. *)
Lemma segments_do_not_always_tile :
  let video := mkClip (Some 30%Q) true 60000 in
  let config := mkConfig true 5 50 ["libx264"%string] in
  let cut := segments (_process_chunk_builder video example_plan ModeCut 0 0 60000 config) in
  let sped := segments (_process_chunk_builder video example_plan ModeSpeedup 0 1 60000 config) in
  valid_plan 60000 example_plan
  /\ ~ (tiles 0 60000 cut /\ total_duration cut = 60000)
  /\ ~ (tiles 0 60000 sped /\ total_duration sped = 60000).
Proof.
  split; [|split].
  - unfold valid_plan, example_plan. simpl. lia.
  - vm_compute. intros [_ H]. discriminate.
  - vm_compute. intros [_ H]. discriminate.
Qed.

(* ===================================================================== *)
(** * Properties of the render controller                                 *)
(* ===================================================================== *)

Section Render.

Lemma moviepy_calls_app (l1 l2 : list event) :
  moviepy_calls (l1 ++ l2) = (moviepy_calls l1 + moviepy_calls l2)%nat.
Proof. unfold moviepy_calls. now rewrite filter_app, length_app. Qed.

Lemma moviepy_calls_after (l : list event) :
  Forall after_moviepy_entry l -> moviepy_calls l = 0%nat.
Proof.
  induction 1 as [|ev l Hev _ IH]; [reflexivity|].
  unfold moviepy_calls in *. simpl.
  destruct ev; simpl in *; try assumption; contradiction.
Qed.

Lemma no_ffmpeg_after (l : list event) (step : ffmpeg_step) :
  Forall after_moviepy_entry l -> ~ In (RunFFmpeg step) l.
Proof.
  intros Hall Hin. rewrite Forall_forall in Hall.
  exact (Hall _ Hin).
Qed.

Lemma write_with_encoders_shape (w : World) (codecs : list string) :
  forall tr, exists b rest,
    write_with_encoders w codecs tr = (inl b, tr ++ rest)
    /\ Forall after_moviepy_entry rest
    /\ ~ In DialogDone rest.
Proof.
  induction codecs as [|c codecs IH]; intros tr; simpl.
  - exists false, []. rewrite app_nil_r. repeat split; [constructor | intros []].
  - unfold bind, emit. destruct (encoder_works w c).
    + exists true, [EncodeVideo c]. repeat split.
      * repeat constructor.
      * simpl. intros [H|[]]. discriminate.
    + destruct (IH (tr ++ [EncodeVideo c])) as (b & rest & Heq & Hall & Hno).
      exists b, (EncodeVideo c :: rest). rewrite Heq, <- app_assoc. repeat split.
      * constructor; [exact I | exact Hall].
      * simpl. intros [H|H]; [discriminate | exact (Hno H)].
Qed.

(** The MoviePy path announces itself once and runs no FFmpeg subprocess;
    it returns, or it raises the [ValueError] of a [subclip] call before
    anything else happens. *)
Lemma _process_with_moviepy_shape w ranges mode pre post config f v :
  forall tr, exists r rest,
    _process_with_moviepy w ranges mode pre post config f v tr
    = (r, tr ++ CallMoviePy :: rest)
    /\ Forall after_moviepy_entry rest
    /\ (r = inl tt
        \/ r = inr ValueError /\ rest = []
           /\ exists video, source w = Some video
                /\ moviepy_raises video ranges mode pre post f v = true).
Proof.
  intros tr. unfold _process_with_moviepy, bind, emit.
  destruct (source w) as [video|].
  - destruct (moviepy_raises video ranges mode pre post f v) eqn:Hr.
    { exists (inr ValueError), []. unfold raise.
      split; [reflexivity|]. split; [constructor|].
      right. split; [reflexivity|]. split; [reflexivity|].
      exists video. now split. }
    destruct (nonempty _).
    + destruct (write_with_encoders_shape w (encoder_priority config)
                  ((tr ++ [CallMoviePy]) ++ [Concatenate
                     (moviepy_clips video ranges mode pre post f v)]))
        as (b & rest & Heq & Hall & _).
      rewrite Heq. destruct b.
      * exists (inl tt), (Concatenate (moviepy_clips video ranges mode pre post f v)
                  :: rest ++ [DialogDone]).
        rewrite <- !app_assoc. simpl. split; [reflexivity|]. split; [|now left].
        constructor; [exact I|]. apply Forall_app. split; [exact Hall|].
        repeat constructor.
      * exists (inl tt), (Concatenate (moviepy_clips video ranges mode pre post f v)
                  :: rest ++ [DialogError MoviePyEncodeError]).
        rewrite <- !app_assoc. simpl. split; [reflexivity|]. split; [|now left].
        constructor; [exact I|]. apply Forall_app. split; [exact Hall|].
        repeat constructor.
    + exists (inl tt), []. unfold ret. split; [reflexivity|].
      split; [constructor | now left].
  - exists (inl tt), [DialogError FileOpenError]. rewrite <- app_assoc. simpl.
    split; [reflexivity|]. split; [repeat constructor | now left].
Qed.

Lemma select_backend_fast w config ranges :
  result_of (select_backend w config ranges) = inl true ->
  exists video, source w = Some video
    /\ use_ffmpeg_direct config = true
    /\ estimate_stream_count (clip_has_audio video) ranges <= MAX_CONCAT_STREAMS
    /\ forall tr, select_backend w config ranges tr = (inl true, tr).
Proof.
  unfold result_of, run, select_backend, open_clip, bind, ret, raise.
  destruct (use_ffmpeg_direct config); [|discriminate].
  destruct (source w) as [video|]; [|discriminate].
  destruct (Z.gtb_spec (estimate_stream_count (clip_has_audio video) ranges)
              MAX_CONCAT_STREAMS); simpl; [discriminate|].
  intros _. exists video. repeat split. lia.
Qed.

End Render.

Section FastPath.

Variables (w : World) (ranges : list TimeRange) (mode : processing_mode)
  (pre post : Z) (config : Config).

(** The four ways the attempt on the fast path can end. *)
Lemma fast_path_attempt_outcome (video : VideoFileClip) :
  source w = Some video ->
  fast_outcome w config (run (fast_path_attempt w ranges mode pre post config)).
Proof.
  intros Hsrc.
  unfold run, fast_path_attempt, _process_chunk, open_clip, bind.
  rewrite Hsrc. unfold ret at 1 2.
  destruct (build _) as [[vfc afc] n].
  destruct (Nat.eqb n 0).
  { apply (FO_done w config []). constructor. }
  unfold first_encoder.
  destruct (encoder_priority config) as [|codec codecs] eqn:Henc.
  { apply FO_no_encoder. exact Henc. }
  unfold ret at 1.
  unfold _run_ffmpeg_command, bind, emit.
  destruct (run_subprocess w VideoPass) eqn:EV; simpl.
  - destruct (clip_has_audio video && nonempty afc); simpl.
    + destruct (run_subprocess w AudioPass) eqn:EA; simpl.
      * destruct (run_subprocess w MuxPass) eqn:EM; simpl.
        -- apply (FO_done w config [VideoPass; AudioPass; MuxPass]).
           repeat constructor; assumption.
        -- apply (FO_nonzero w config [VideoPass; AudioPass] MuxPass);
             [repeat constructor|]; assumption.
        -- apply (FO_launch w config [VideoPass; AudioPass] MuxPass);
             [repeat constructor|]; assumption.
      * apply (FO_nonzero w config [VideoPass] AudioPass);
          [repeat constructor|]; assumption.
      * apply (FO_launch w config [VideoPass] AudioPass);
          [repeat constructor|]; assumption.
    + destruct (run_subprocess w MuxPass) eqn:EM; simpl.
      * apply (FO_done w config [VideoPass; MuxPass]). repeat constructor; assumption.
      * apply (FO_nonzero w config [VideoPass] MuxPass);
          [repeat constructor|]; assumption.
      * apply (FO_launch w config [VideoPass] MuxPass);
          [repeat constructor|]; assumption.
  - apply (FO_nonzero w config [] VideoPass); [constructor | assumption].
  - apply (FO_launch w config [] VideoPass); [constructor | assumption].
Qed.

Variables (f v : Q).

(** A job started on the fast path is the attempt, guarded by the [try]
    whose handler is the MoviePy path. *)
Lemma cut_or_speedup_video_fast :
  result_of (select_backend w config ranges) = inl true ->
  run (cut_or_speedup_video w ranges mode pre post config f v)
  = run (try_except (fast_path_attempt w ranges mode pre post config)
           (fun _ => _process_with_moviepy w ranges mode pre post config f v)).
Proof.
  intros Hsel.
  destruct (select_backend_fast _ _ _ Hsel) as (video & _ & _ & _ & Hs).
  unfold run, cut_or_speedup_video, bind at 1. now rewrite Hs.
Qed.

(** The shapes of a job started on the fast path, side by side with the
    outcome of its attempt. *)
Lemma fast_job_shape :
  result_of (select_backend w config ranges) = inl true ->
  let attempt := run (fast_path_attempt w ranges mode pre post config) in
  let job := run (cut_or_speedup_video w ranges mode pre post config f v) in
  (exists ran,
     Forall (fun s => run_subprocess w s = ExitZero) ran
     /\ attempt = (inl tt, map RunFFmpeg ran ++ [DialogDone])
     /\ job = attempt)
  \/ (exists ran s,
        Forall (fun s => run_subprocess w s = ExitZero) ran
        /\ run_subprocess w s = ExitNonZero
        /\ attempt = (inl tt, map RunFFmpeg ran
                                ++ [RunFFmpeg s; DialogError (FFmpegEncodeError s)])
        /\ job = attempt)
  \/ (exists ran s r rest,
        Forall (fun s => run_subprocess w s = ExitZero) ran
        /\ run_subprocess w s = LaunchFailed
        /\ attempt = (inr (OSError s), map RunFFmpeg ran ++ [RunFFmpeg s])
        /\ job = (r, map RunFFmpeg ran ++ RunFFmpeg s :: CallMoviePy :: rest)
        /\ Forall after_moviepy_entry rest)
  \/ (exists r rest,
        encoder_priority config = []
        /\ attempt = (inr IndexError, [])
        /\ job = (r, CallMoviePy :: rest)
        /\ Forall after_moviepy_entry rest).
Proof.
  intros Hsel attempt job.
  destruct (select_backend_fast _ _ _ Hsel) as (video & Hsrc & _).
  pose proof (fast_path_attempt_outcome video Hsrc) as Hout.
  assert (Hjob : job = match attempt with
                       | (inl a, tr) => (inl a, tr)
                       | (inr e, tr) =>
                           _process_with_moviepy w ranges mode pre post config f v tr
                       end).
  { subst job. rewrite (cut_or_speedup_video_fast Hsel). reflexivity. }
  fold attempt in Hout. clearbody attempt job.
  inversion Hout as [ran Hz E | ran s Hz Hs E | ran s Hz Hs E | Henc E];
    rewrite <- E in Hjob.
  - left. exists ran. now repeat split.
  - right; left. exists ran, s. now repeat split.
  - right; right; left.
    destruct (_process_with_moviepy_shape w ranges mode pre post config f v
                (map RunFFmpeg ran ++ [RunFFmpeg s])) as (r & rest & Heq & Hrest & _).
    rewrite Heq, <- app_assoc in Hjob. exists ran, s, r, rest. now repeat split.
  - right; right; right.
    destruct (_process_with_moviepy_shape w ranges mode pre post config f v [])
      as (r & rest & Heq & Hrest & _).
    rewrite Heq in Hjob. exists r, rest. now repeat split.
Qed.

End FastPath.

Lemma moviepy_calls_steps (ran : list ffmpeg_step) :
  moviepy_calls (map RunFFmpeg ran) = 0%nat.
Proof. induction ran as [|s ran IH]; [reflexivity | exact IH]. Qed.

Lemma in_steps (ran : list ffmpeg_step) (ev : event) :
  In ev (map RunFFmpeg ran) -> exists s, ev = RunFFmpeg s /\ In s ran.
Proof.
  intros H. apply in_map_iff in H. destruct H as (s & <- & Hs). now exists s.
Qed.

Lemma moviepy_calls_entry (before rest : list event) :
  moviepy_calls before = 0%nat -> Forall after_moviepy_entry rest ->
  moviepy_calls (before ++ CallMoviePy :: rest) = 1%nat.
Proof.
  intros Hb Hrest. change (CallMoviePy :: rest) with ([CallMoviePy] ++ rest).
  rewrite !moviepy_calls_app, Hb, (moviepy_calls_after rest Hrest). reflexivity.
Qed.

Lemma moviepy_calls_entry_first (rest : list event) :
  Forall after_moviepy_entry rest -> moviepy_calls (CallMoviePy :: rest) = 1%nat.
Proof. exact (moviepy_calls_entry [] rest eq_refl). Qed.

(** The steps of a trace made of steps with exit status zero and one last
    step [s]. *)
Lemma steps_then (w : World) (ran : list ffmpeg_step) (s : ffmpeg_step)
    (tail : list event) (step : ffmpeg_step) :
  Forall (fun s => run_subprocess w s = ExitZero) ran ->
  (forall s', ~ In (RunFFmpeg s') tail) ->
  In (RunFFmpeg step) (map RunFFmpeg ran ++ RunFFmpeg s :: tail) ->
  run_subprocess w step = ExitZero \/ step = s.
Proof.
  intros Hz Htail Hin. rewrite Forall_forall in Hz.
  apply in_app_or in Hin. destruct Hin as [Hin|Hin].
  - apply in_steps in Hin. destruct Hin as (s' & [= ->] & Hin). left. now apply Hz.
  - simpl in Hin. destruct Hin as [[= ->]|Hin]; [now right|].
    exfalso. exact (Htail _ Hin).
Qed.

(** Whatever backend is selected, a run enters the MoviePy path at most
    once. *)
Lemma moviepy_entered_at_most_once w ranges mode pre post config f v :
  (moviepy_calls
     (trace_of (cut_or_speedup_video w ranges mode pre post config f v)) <= 1)%nat.
Proof.
  destruct (result_of (select_backend w config ranges)) as [[|]|e] eqn:Hsel.
  - unfold trace_of.
    destruct (fast_job_shape w ranges mode pre post config f v Hsel)
      as [(ran & _ & E & ->) | [(ran & s & _ & _ & E & ->)
          | [(ran & s & r & rest & _ & _ & _ & -> & Hrest)
             | (r & rest & _ & _ & -> & Hrest)]]]; try rewrite E; cbn [snd].
    + rewrite moviepy_calls_app, moviepy_calls_steps. unfold moviepy_calls. simpl. lia.
    + rewrite moviepy_calls_app, moviepy_calls_steps. unfold moviepy_calls. simpl. lia.
    + change (RunFFmpeg s :: CallMoviePy :: rest)
        with ([RunFFmpeg s] ++ CallMoviePy :: rest).
      rewrite app_assoc, moviepy_calls_entry; [lia| |exact Hrest].
      rewrite moviepy_calls_app, moviepy_calls_steps. reflexivity.
    + rewrite (moviepy_calls_entry_first rest Hrest). lia.
  - assert (Hs : select_backend w config ranges [] = (inl false, [])).
    { revert Hsel. unfold result_of, run, select_backend, open_clip, bind, ret, raise.
      destruct (use_ffmpeg_direct config); [|reflexivity].
      destruct (source w); [|discriminate].
      destruct (_ >? _); [reflexivity | discriminate]. }
    unfold trace_of, run, cut_or_speedup_video, bind at 1. rewrite Hs.
    destruct (_process_with_moviepy_shape w ranges mode pre post config f v [])
      as (r & rest & Heq & Hrest & _).
    rewrite Heq. cbn [snd app].
    rewrite (moviepy_calls_entry_first rest Hrest). lia.
  - assert (Hs : select_backend w config ranges [] = (inr e, [])).
    { revert Hsel. unfold result_of, run, select_backend, open_clip, bind, ret, raise.
      destruct (use_ffmpeg_direct config); [|discriminate].
      destruct (source w); [|simpl; congruence].
      destruct (_ >? _); discriminate. }
    unfold trace_of, run, cut_or_speedup_video, bind at 1. rewrite Hs.
    unfold moviepy_calls. simpl. lia.
Qed.

(** C3 (as the code has it). For every render job started on the fast
    path: when a subprocess step that was run exits non-zero, the job ends
    there, its trace being the steps run followed by that step's error
    dialog, without success dialog and without entering the MoviePy path;
    when a step that was run could not be started (an exception other than
    [CalledProcessError]), the attempt raises and the MoviePy path is
    entered; the MoviePy path is entered, once, exactly when the attempt on
    the fast path raises, and then right after what the attempt did; when
    the attempt returns, the job is the attempt and nothing follows it; and
    no run enters the MoviePy path more than once. *)
Theorem fast_path_failure_handling (w : World) (ranges : list TimeRange)
    (mode : processing_mode) (pre post : Z) (config : Config) (f v : Q) :
  result_of (select_backend w config ranges) = inl true ->
  let job := run (cut_or_speedup_video w ranges mode pre post config f v) in
  let attempt := run (fast_path_attempt w ranges mode pre post config) in
  let tr := snd job in
  (forall step, In (RunFFmpeg step) tr -> run_subprocess w step = ExitNonZero ->
     (exists ran,
        job = (inl tt, map RunFFmpeg ran
                         ++ [RunFFmpeg step; DialogError (FFmpegEncodeError step)]))
     /\ moviepy_calls tr = 0%nat
     /\ In (DialogError (FFmpegEncodeError step)) tr
     /\ ~ In DialogDone tr)
  /\ (forall step, In (RunFFmpeg step) tr -> run_subprocess w step = LaunchFailed ->
        fst attempt = inr (OSError step) /\ moviepy_calls tr = 1%nat)
  /\ (moviepy_calls tr = 1%nat <-> exists e, fst attempt = inr e)
  /\ (forall e, fst attempt = inr e ->
        exists rest, tr = snd attempt ++ CallMoviePy :: rest
                     /\ Forall after_moviepy_entry rest)
  /\ (forall ok, fst attempt = inl ok -> job = attempt /\ moviepy_calls tr = 0%nat)
  /\ (moviepy_calls tr <= 1)%nat.
Proof.
  intros Hsel job attempt tr.
  assert (Hno : forall s', ~ In (RunFFmpeg s') [DialogDone]).
  { intros s' [H|[]]. discriminate. }
  assert (Hno1 : forall s s', ~ In (RunFFmpeg s') [DialogError (FFmpegEncodeError s)]).
  { intros s s' [H|[]]. discriminate. }
  destruct (fast_job_shape w ranges mode pre post config f v Hsel)
    as [(ran & Hz & Ea & Ej) | [(ran & s & Hz & Hs & Ea & Ej)
        | [(ran & s & r & rest & Hz & Hs & Ea & Ej & Hrest)
           | (r & rest & Henc & Ea & Ej & Hrest)]]];
    fold attempt in Ea, Ej; fold job in Ej.
  - (* every step exited with zero *)
    assert (Et : tr = map RunFFmpeg ran ++ [DialogDone]).
    { subst tr. rewrite Ej, Ea. reflexivity. }
    assert (Hwho : forall step, In (RunFFmpeg step) tr -> run_subprocess w step = ExitZero).
    { intros step Hin. rewrite Et in Hin. rewrite Forall_forall in Hz.
      apply in_app_or in Hin. destruct Hin as [Hin|Hin].
      - apply in_steps in Hin. destruct Hin as (s & [= ->] & Hin). now apply Hz.
      - exfalso. exact (Hno _ Hin). }
    assert (Hc : moviepy_calls tr = 0%nat).
    { rewrite Et, moviepy_calls_app, moviepy_calls_steps. reflexivity. }
    split; [|split; [|split; [|split; [|split]]]].
    + intros step Hin Hnz. apply Hwho in Hin. congruence.
    + intros step Hin Hlf. apply Hwho in Hin. congruence.
    + rewrite Hc, Ea. split; [discriminate | intros (e & He); discriminate].
    + intros e He. rewrite Ea in He. discriminate.
    + intros ok _. split; [exact Ej | exact Hc].
    + rewrite Hc. lia.
  - (* step [s] exited non-zero *)
    assert (Et : tr = map RunFFmpeg ran
                      ++ [RunFFmpeg s; DialogError (FFmpegEncodeError s)]).
    { subst tr. rewrite Ej, Ea. reflexivity. }
    assert (Hwho : forall step, In (RunFFmpeg step) tr ->
                     run_subprocess w step = ExitZero \/ step = s).
    { intros step Hin. rewrite Et in Hin.
      exact (steps_then w ran s _ step Hz (Hno1 s) Hin). }
    assert (Hc : moviepy_calls tr = 0%nat).
    { rewrite Et, moviepy_calls_app, moviepy_calls_steps. reflexivity. }
    split; [|split; [|split; [|split; [|split]]]].
    + intros step Hin Hnz.
      destruct (Hwho _ Hin) as [Hz'| ->]; [congruence|].
      split; [exists ran; rewrite Ej, Ea; reflexivity|].
      split; [exact Hc|]. rewrite Et. split.
      * apply in_or_app. right. simpl. auto.
      * intros Hd. apply in_app_or in Hd. destruct Hd as [Hd|Hd].
        -- apply in_steps in Hd. destruct Hd as (s' & Heq & _). discriminate.
        -- simpl in Hd. destruct Hd as [Hd|[Hd|[]]]; discriminate.
    + intros step Hin Hlf. destruct (Hwho _ Hin) as [Hz'| ->]; congruence.
    + rewrite Hc, Ea. split; [discriminate | intros (e & He); discriminate].
    + intros e He. rewrite Ea in He. discriminate.
    + intros ok _. split; [exact Ej | exact Hc].
    + rewrite Hc. lia.
  - (* step [s] could not be started *)
    assert (Et : tr = map RunFFmpeg ran ++ RunFFmpeg s :: CallMoviePy :: rest).
    { subst tr. rewrite Ej. reflexivity. }
    assert (Hwho : forall step, In (RunFFmpeg step) tr ->
                     run_subprocess w step = ExitZero \/ step = s).
    { intros step Hin. rewrite Et in Hin.
      apply (steps_then w ran s (CallMoviePy :: rest) step Hz); [|exact Hin].
      intros s' [H|H]; [discriminate | exact (no_ffmpeg_after rest s' Hrest H)]. }
    assert (Hc : moviepy_calls tr = 1%nat).
    { rewrite Et. change (RunFFmpeg s :: CallMoviePy :: rest)
        with ([RunFFmpeg s] ++ CallMoviePy :: rest).
      rewrite app_assoc, moviepy_calls_entry; [reflexivity| |exact Hrest].
      rewrite moviepy_calls_app, moviepy_calls_steps. reflexivity. }
    split; [|split; [|split; [|split; [|split]]]].
    + intros step Hin Hnz. destruct (Hwho _ Hin) as [Hz'| ->]; congruence.
    + intros step Hin Hlf. destruct (Hwho _ Hin) as [Hz'| ->]; [congruence|].
      split; [rewrite Ea; reflexivity | exact Hc].
    + rewrite Ea. split; [intros _; now exists (OSError s) | intros _; exact Hc].
    + intros e _. rewrite Ea. cbn [snd].
      exists rest. rewrite Et, <- app_assoc. split; [reflexivity | exact Hrest].
    + intros ok He. rewrite Ea in He. discriminate.
    + rewrite Hc. lia.
  - (* no first encoder *)
    assert (Et : tr = CallMoviePy :: rest).
    { subst tr. rewrite Ej. reflexivity. }
    assert (Hwho : forall step, ~ In (RunFFmpeg step) tr).
    { intros step Hin. rewrite Et in Hin. destruct Hin as [H|H];
        [discriminate | exact (no_ffmpeg_after rest step Hrest H)]. }
    assert (Hc : moviepy_calls tr = 1%nat).
    { rewrite Et. exact (moviepy_calls_entry_first rest Hrest). }
    split; [|split; [|split; [|split; [|split]]]].
    + intros step Hin. exfalso. exact (Hwho _ Hin).
    + intros step Hin. exfalso. exact (Hwho _ Hin).
    + rewrite Ea. split; [intros _; now exists IndexError | intros _; exact Hc].
    + intros e _. rewrite Ea. cbn [snd].
      exists rest. split; [exact Et | exact Hrest].
    + intros ok He. rewrite Ea in He. discriminate.
    + rewrite Hc. lia.
Qed.

Lemma fast_path_failure_handling_witness :
  let job1 := run (cut_or_speedup_video world_video_pass_fails example_plan
                     ModeCut 2 1 example_config 5 (1 # 2)) in
  let job2 := run (cut_or_speedup_video world_mux_not_started example_plan
                     ModeCut 2 1 example_config 5 (1 # 2)) in
  let job3 := run (cut_or_speedup_video world_all_fine example_plan
                     ModeCut 2 1 example_config 5 (1 # 2)) in
  ((exists ran,
      job1 = (inl tt, map RunFFmpeg ran
                        ++ [RunFFmpeg VideoPass;
                            DialogError (FFmpegEncodeError VideoPass)]))
   /\ moviepy_calls (snd job1) = 0%nat
   /\ In (DialogError (FFmpegEncodeError VideoPass)) (snd job1)
   /\ ~ In DialogDone (snd job1))
  /\ moviepy_calls (snd job2) = 1%nat
  /\ (job3 = run (fast_path_attempt world_all_fine example_plan ModeCut 2 1
                    example_config)
      /\ moviepy_calls (snd job3) = 0%nat).
Proof.
  split; [|split].
  - apply (proj1 (fast_path_failure_handling world_video_pass_fails example_plan
                    ModeCut 2 1 example_config 5 (1 # 2) eq_refl) VideoPass).
    + vm_compute. left. reflexivity.
    + reflexivity.
  - apply (proj1 (proj2 (fast_path_failure_handling world_mux_not_started example_plan
                    ModeCut 2 1 example_config 5 (1 # 2) eq_refl)) MuxPass).
    + vm_compute. right. right. left. reflexivity.
    + reflexivity.
  - apply (proj1 (proj2 (proj2 (proj2 (proj2
             (fast_path_failure_handling world_all_fine example_plan
                ModeCut 2 1 example_config 5 (1 # 2) eq_refl))))) tt).
    reflexivity.
Defined.

(** C3 as stated fails: with the video pass exiting non-zero, a job on the
    fast path shows the error dialog and stops; the MoviePy path is not
    entered. *)
Lemma nonzero_exit_does_not_fall_back :
  let job := cut_or_speedup_video world_video_pass_fails example_plan
               ModeCut 2 1 example_config 5 (1 # 2) in
  result_of (select_backend world_video_pass_fails example_config example_plan)
  = inl true
  /\ run_subprocess world_video_pass_fails VideoPass = ExitNonZero
  /\ trace_of job = [RunFFmpeg VideoPass; DialogError (FFmpegEncodeError VideoPass)]
  /\ moviepy_calls (trace_of job) <> 1%nat.
Proof. vm_compute. repeat split. discriminate. Qed.

(** The fallback in the two cases in which the attempt raises: FFmpeg
    cannot be started for the mux step; the configuration lists no
    encoder. *)
Example fallback_after_launch_failure :
  run (cut_or_speedup_video world_mux_not_started example_plan
         ModeCut 2 1 example_config 5 (1 # 2))
  = (inl tt,
     [RunFFmpeg VideoPass; RunFFmpeg AudioPass; RunFFmpeg MuxPass; CallMoviePy;
      Concatenate [Subclip 0 8000; Subclip 20000 60000];
      EncodeVideo "h264_nvenc"; DialogDone]).
Proof. reflexivity. Qed.

Example fallback_without_encoder :
  run (cut_or_speedup_video world_all_fine example_plan
         ModeCut 2 1 (mkConfig true 5 50 []) 5 (1 # 2))
  = (inl tt,
     [CallMoviePy; Concatenate [Subclip 0 8000; Subclip 20000 60000];
      DialogError MoviePyEncodeError]).
Proof. reflexivity. Qed.

(** C8. With the fast path enabled by configuration and the estimate
    [2*N+1] against the cap of 50 streams: for N = 30 plan ranges the
    estimate is 61 and the safe (MoviePy) path is selected, the job running
    no FFmpeg step; for N = 10 it is 21 and the fast path is selected, the
    job being the attempt on the fast path inside its [try]. *)
Theorem backend_selected_by_estimate (w : World) (config : Config)
    (video : VideoFileClip) (ranges30 ranges10 : list TimeRange)
    (mode : processing_mode) (pre post : Z) (f v : Q) :
  use_ffmpeg_direct config = true ->
  source w = Some video ->
  length ranges30 = 30%nat ->
  length ranges10 = 10%nat ->
  (estimate_stream_count (clip_has_audio video) ranges30 = 61
   /\ result_of (select_backend w config ranges30) = inl false
   /\ exists rest,
        trace_of (cut_or_speedup_video w ranges30 mode pre post config f v)
        = CallMoviePy :: rest
        /\ Forall after_moviepy_entry rest)
  /\ (estimate_stream_count (clip_has_audio video) ranges10 = 21
      /\ result_of (select_backend w config ranges10) = inl true
      /\ run (cut_or_speedup_video w ranges10 mode pre post config f v)
         = run (try_except (fast_path_attempt w ranges10 mode pre post config)
                  (fun _ => _process_with_moviepy w ranges10 mode pre post
                              config f v))).
Proof.
  intros Hcfg Hsrc H30 H10.
  assert (E30 : estimate_stream_count (clip_has_audio video) ranges30 = 61).
  { unfold estimate_stream_count. rewrite H30. now destruct (clip_has_audio video). }
  assert (E10 : estimate_stream_count (clip_has_audio video) ranges10 = 21).
  { unfold estimate_stream_count. rewrite H10. now destruct (clip_has_audio video). }
  assert (S30 : forall tr, select_backend w config ranges30 tr = (inl false, tr)).
  { intros tr. unfold select_backend, open_clip, bind, ret.
    now rewrite Hcfg, Hsrc, E30. }
  assert (S10 : forall tr, select_backend w config ranges10 tr = (inl true, tr)).
  { intros tr. unfold select_backend, open_clip, bind, ret.
    now rewrite Hcfg, Hsrc, E10. }
  split; split; try assumption; split.
  - unfold result_of, run. now rewrite S30.
  - unfold trace_of, run, cut_or_speedup_video, bind at 1. rewrite S30.
    destruct (_process_with_moviepy_shape w ranges30 mode pre post config f v [])
      as (r & rest & Heq & Hrest & _).
    exists rest. rewrite Heq. split; [reflexivity | exact Hrest].
  - unfold result_of, run. now rewrite S10.
  - apply cut_or_speedup_video_fast. unfold result_of, run. now rewrite S10.
Qed.

Lemma backend_selected_by_estimate_witness :
  result_of (select_backend world_video_pass_fails example_config
               (repeat (0, 1000) 30)) = inl false
  /\ result_of (select_backend world_video_pass_fails example_config
                  (repeat (0, 1000) 10)) = inl true.
Proof.
  destruct (backend_selected_by_estimate world_video_pass_fails example_config
              example_video (repeat (0, 1000) 30) (repeat (0, 1000) 10)
              ModeCut 2 1 5 (1 # 2) eq_refl eq_refl eq_refl eq_refl)
    as [(_ & H30 & _) (_ & H10 & _)].
  split; [exact H30 | exact H10].
Defined.

(* ===================================================================== *)
(** * Further properties of the range merger                              *)
(* ===================================================================== *)

Section MergerCoverage.

Variables (d g : Z).

Lemma In_insert_by_start (r x : TimeRange) (l : list TimeRange) :
  In x (insert_by_start r l) <-> x = r \/ In x l.
Proof.
  induction l as [|h t IH]; simpl.
  - split; intros [H|H]; auto; contradiction.
  - destruct (range_start r <=? range_start h); simpl.
    + split; intros [H|H]; auto.
    + rewrite IH. split; intros H; intuition.
Qed.

Lemma In_sorted_by_start (x : TimeRange) (l : list TimeRange) :
  In x (sorted_by_start l) <-> In x l.
Proof.
  induction l as [|r l IH]; simpl; [tauto|].
  rewrite In_insert_by_start, IH. split; intros [H|H]; auto.
Qed.

(** A group that is long enough already is emitted, starting where it
    started and ending no earlier than it ends now. *)
Lemma merge_loop_current_emitted (rest : list TimeRange) : forall cs ce,
  d <= ce - cs ->
  exists o, In o (merge_loop d g cs ce rest [])
            /\ range_start o = cs /\ ce <= range_end o.
Proof.
  induction rest as [|[ns ne] rest IH]; intros cs ce Hd; simpl.
  - destruct (Z.geb_spec (ce - cs) d); [|lia].
    exists (cs, ce). simpl. repeat split; auto. unfold range_end. simpl. lia.
  - destruct (ns <? ce + g).
    + destruct (IH cs (Z.max ce ne) ltac:(lia)) as (o & Hin & Hs & He).
      exists o. repeat split; auto. lia.
    + destruct (Z.geb_spec (ce - cs) d); [|lia].
      rewrite merge_loop_acc. exists (cs, ce). simpl.
      repeat split; auto. unfold range_end. simpl. lia.
Qed.

Lemma merge_loop_covers (rest : list TimeRange) : forall cs ce r,
  StronglySorted start_le rest ->
  Forall (fun x => cs <= range_start x) rest ->
  In r rest -> d <= duration r ->
  exists o, In o (merge_loop d g cs ce rest []) /\ covers o r.
Proof.
  induction rest as [|[ns ne] rest IH]; intros cs ce r Hs Hlo Hin Hd; [contradiction|].
  inversion Hs as [|? ? Hs' Hns]; subst.
  inversion Hlo as [|? ? Hcs Hlo']; subst.
  unfold range_start in Hcs; simpl in Hcs.
  simpl. destruct Hin as [<-|Hin].
  - unfold duration, range_start, range_end in Hd; simpl in Hd.
    destruct (ns <? ce + g).
    + destruct (merge_loop_current_emitted rest cs (Z.max ce ne) ltac:(lia))
        as (o & Ho & Hos & Hoe).
      exists o. split; [exact Ho|].
      unfold covers, range_start, range_end in *; simpl. lia.
    + destruct (merge_loop_current_emitted rest ns ne ltac:(lia))
        as (o & Ho & Hos & Hoe).
      exists o. split.
      * rewrite merge_loop_acc. apply in_or_app. now right.
      * unfold covers, range_start, range_end in *; simpl. lia.
  - destruct (ns <? ce + g).
    + apply IH; assumption.
    + destruct (IH ns ne r Hs' Hns Hin Hd) as (o & Ho & Hc).
      exists o. split; [|exact Hc].
      rewrite merge_loop_acc. apply in_or_app. now right.
Qed.

Lemma merge_covers_long (ranges : list TimeRange) (r : TimeRange) :
  In r ranges -> d <= duration r ->
  exists o, In o (merge_and_optimize_ranges ranges d g) /\ covers o r.
Proof.
  intros Hin Hd. unfold merge_and_optimize_ranges.
  destruct ranges as [|r0 ranges0]; [contradiction|].
  pose proof (sorted_by_start_sorted (r0 :: ranges0)) as Hs.
  apply In_sorted_by_start in Hin.
  destruct (sorted_by_start (r0 :: ranges0)) as [|[cs ce] rest]; [contradiction|].
  inversion Hs as [|? ? Hs' Hlo]; subst.
  destruct Hin as [<-|Hin].
  - unfold duration, range_start, range_end in Hd; simpl in Hd.
    destruct (merge_loop_current_emitted rest cs ce Hd) as (o & Ho & Hos & Hoe).
    exists o. split; [exact Ho|].
    unfold covers, range_start, range_end in *; simpl. lia.
  - now apply merge_loop_covers.
Qed.

(** Every emitted range starts at the start of the current group or of a
    later input range, and ends at such an end. *)
Lemma merge_loop_endpoints (rest : list TimeRange) : forall cs ce o,
  In o (merge_loop d g cs ce rest []) ->
  In (range_start o) (cs :: map range_start rest)
  /\ In (range_end o) (ce :: map range_end rest).
Proof.
  induction rest as [|[ns ne] rest IH]; intros cs ce o Hin; simpl in Hin.
  - destruct (ce - cs >=? d); [|contradiction].
    destruct Hin as [<-|[]]. split; left; reflexivity.
  - destruct (ns <? ce + g).
    + destruct (IH _ _ _ Hin) as [Hs He]. split.
      * simpl in *. tauto.
      * simpl in *. destruct He as [He|He]; [|tauto].
        destruct (Z.max_spec ce ne) as [[_ E]|[_ E]]; rewrite E in He; auto.
    + rewrite merge_loop_acc in Hin. apply in_app_or in Hin.
      destruct Hin as [Hin|Hin].
      * destruct (ce - cs >=? d); [|contradiction].
        destruct Hin as [<-|[]]. split; left; reflexivity.
      * destruct (IH _ _ _ Hin) as [Hs He]. split; simpl in *; tauto.
Qed.

Lemma merge_endpoints (ranges : list TimeRange) (o : TimeRange) :
  In o (merge_and_optimize_ranges ranges d g) ->
  (exists r, In r ranges /\ range_start r = range_start o)
  /\ (exists r, In r ranges /\ range_end r = range_end o).
Proof.
  unfold merge_and_optimize_ranges.
  destruct ranges as [|r0 ranges0]; [contradiction|].
  pose proof (In_sorted_by_start) as Hperm.
  destruct (sorted_by_start (r0 :: ranges0)) as [|[cs ce] rest] eqn:E; [contradiction|].
  intros Hin. apply merge_loop_endpoints in Hin. destruct Hin as [Hs He].
  assert (Hs2 : In (range_start o) (map range_start (sorted_by_start (r0 :: ranges0))))
    by (rewrite E; exact Hs).
  assert (He2 : In (range_end o) (map range_end (sorted_by_start (r0 :: ranges0))))
    by (rewrite E; exact He).
  clear Hs He. rename Hs2 into Hs. rename He2 into He.
  apply in_map_iff in Hs. destruct Hs as (r & Hr & Hin).
  apply in_map_iff in He. destruct He as (r' & Hr' & Hin').
  apply (proj1 (Hperm _ _)) in Hin. apply (proj1 (Hperm _ _)) in Hin'.
  split; [exists r | exists r']; split; assumption.
Qed.

(** A chain of non-empty ranges within [from, total], each ending before
    the next starts, is a plan. *)
Lemma chain_is_plan (total : Z) (out : list TimeRange) : forall from,
  from <= total ->
  Forall (fun o => from <= range_start o /\ range_start o < range_end o
                   /\ range_end o <= total) out ->
  StronglySorted ends_before out ->
  margin_fits 0 from total out.
Proof.
  induction out as [|[s e] out IH]; intros from Htot Hall Hs; simpl; [exact Htot|].
  inversion Hall as [|? ? (Hfrom & Hse & He) Hall']; subst.
  inversion Hs as [|? ? Hs' Hhd]; subst.
  unfold range_start, range_end in *; simpl in *.
  repeat split; try lia.
  apply IH; [lia | | exact Hs'].
  rewrite Forall_forall in *. intros o Ho.
  destruct (Hall' o Ho) as (_ & H1 & H2). specialize (Hhd o Ho).
  unfold ends_before, range_start, range_end in Hhd; simpl in Hhd.
  repeat split; assumption.
Qed.

Lemma merge_is_plan (total : Z) (ranges : list TimeRange) :
  0 < d -> 0 <= g -> 0 <= total ->
  Forall (within 0 total) ranges ->
  valid_plan total (merge_and_optimize_ranges ranges d g).
Proof.
  intros Hd Hg Htot Hin. unfold valid_plan.
  destruct (merge_emitted d g ranges) as (lo & Ha & _ & Hc).
  apply chain_is_plan; [exact Htot | |].
  - rewrite Forall_forall in *. intros o Ho.
    destruct (merge_endpoints ranges o Ho) as [(r & Hr & Es) (r' & Hr' & Ee)].
    destruct (Ha o Ho) as [_ Hdur]. unfold duration in Hdur.
    destruct (Hin r Hr) as [H0 _]. destruct (Hin r' Hr') as [_ H1].
    repeat split; lia.
  - clear Ha. induction Hc as [|a l Hl IH Hfa]; constructor; [exact IH|].
    eapply Forall_impl; [|exact Hfa].
    intros b Hab. unfold separated_by in Hab. unfold ends_before. lia.
Qed.

End MergerCoverage.

(** X1. No range that is long enough is lost: every input range lasting at
    least [d] is covered by one of the ranges [merge_and_optimize_ranges]
    returns, whatever the gap tolerance and the order of the input. *)
Theorem merge_keeps_long_ranges (ranges : list TimeRange) (d g : Z) (r : TimeRange) :
  In r ranges -> d <= duration r ->
  exists o, In o (merge_and_optimize_ranges ranges d g) /\ covers o r.
Proof. apply merge_covers_long. Qed.

Lemma merge_keeps_long_ranges_witness :
  exists o, In o (merge_and_optimize_ranges
                    [(700, 1500); (0, 400); (450, 800); (5000, 5100)] 500 100)
            /\ covers o (700, 1500).
Proof.
  apply (merge_keeps_long_ranges
           [(700, 1500); (0, 400); (450, 800); (5000, 5100)] 500 100 (700, 1500)).
  - simpl. auto.
  - unfold duration, range_start, range_end. simpl. lia.
Defined.

(** X2. The merger invents no boundary: every returned range starts at the
    start of some input range and ends at the end of some input range. *)
Theorem merge_boundaries_from_input (ranges : list TimeRange) (d g : Z) (o : TimeRange) :
  In o (merge_and_optimize_ranges ranges d g) ->
  (exists r, In r ranges /\ range_start r = range_start o)
  /\ (exists r, In r ranges /\ range_end r = range_end o).
Proof. apply merge_endpoints. Qed.

Lemma merge_boundaries_from_input_witness :
  (exists r, In r [(700, 1500); (0, 400); (450, 800); (5000, 5100)]
             /\ range_start r = 0)
  /\ (exists r, In r [(700, 1500); (0, 400); (450, 800); (5000, 5100)]
                /\ range_end r = 1500).
Proof.
  apply (merge_boundaries_from_input
           [(700, 1500); (0, 400); (450, 800); (5000, 5100)] 500 100 (0, 1500)).
  simpl. auto.
Defined.

(** X3. Returned ranges keep their distance: each returned range ends at
    least [g] before every later returned range starts, for every [g] (also
    a negative one) and every [d]. *)
Theorem merge_output_gap_separated (ranges : list TimeRange) (d g : Z) :
  StronglySorted (separated_by g) (merge_and_optimize_ranges ranges d g).
Proof.
  destruct (merge_emitted d g ranges) as (lo & _ & _ & Hc). exact Hc.
Qed.

(** X4. The merger's output is a plan the render stage accepts: with a
    positive minimum duration, a gap tolerance [g >= 0] and all input ranges
    inside [0, total], the returned list is a valid ProcessingPlan for a
    source of duration [total] (ordered, disjoint, non-empty ranges within
    [0, total]). *)
Theorem merge_output_is_valid_plan (total : Z) (ranges : list TimeRange) (d g : Z) :
  0 < d -> 0 <= g -> 0 <= total ->
  Forall (within 0 total) ranges ->
  valid_plan total (merge_and_optimize_ranges ranges d g).
Proof. intros. now apply merge_is_plan. Qed.

Lemma merge_output_is_valid_plan_witness :
  valid_plan 6000
    (merge_and_optimize_ranges [(700, 1500); (0, 400); (450, 800); (5000, 5100)] 500 100).
Proof.
  apply (merge_output_is_valid_plan 6000
           [(700, 1500); (0, 400); (450, 800); (5000, 5100)] 500 100); try lia.
  repeat constructor; unfold range_start, range_end; simpl; lia.
Defined.

(* ===================================================================== *)
(** * Further properties of the silence detector                          *)
(* ===================================================================== *)

Section SilenceRanges.

Variables (thresh : Q) (len : Z).
Hypothesis len_pos : 0 < len.

Lemma StronglySorted_snoc {A : Type} (R : A -> A -> Prop) (l : list A) (y : A) :
  StronglySorted R l -> Forall (fun x => R x y) l -> StronglySorted R (l ++ [y]).
Proof.
  induction 1 as [|x l Hl IH Hx]; intros Hy; simpl.
  - repeat constructor.
  - inversion Hy as [|? ? Hxy Hy']; subst.
    constructor; [now apply IH|].
    apply Forall_app. split; [exact Hx | now constructor].
Qed.

Lemma silence_step_inv (i : nat) (c : Chunk) (st : silence_state) :
  silence_inv len (Z.of_nat i * len) st ->
  silence_inv len (Z.of_nat (S i) * len) (silence_step thresh len st (i, c)).
Proof.
  intros (Hs & Hwf & Hst).
  assert (HT : Z.of_nat (S i) * len = Z.of_nat i * len + len) by lia.
  rewrite HT. set (T := Z.of_nat i * len) in *.
  assert (HT0 : 0 <= T) by (subst T; lia).
  unfold silence_step, silence_inv.
  destruct (is_silent_chunk thresh c); destruct (is_in_silence st) eqn:Ein; simpl;
    rewrite ?Ein.
  - destruct Hst as (H0 & H1 & H2). repeat split; try assumption; lia.
  - repeat split; try assumption; try lia.
  - destruct Hst as (H0 & H1 & H2). split; [|split].
    + apply StronglySorted_snoc; [exact Hs|].
      eapply Forall_impl; [|exact H2].
      intros r Hr. unfold separated_by. simpl. exact Hr.
    + apply Forall_app. split; [exact Hwf|].
      repeat constructor; unfold range_start, range_end; simpl; lia.
    + apply Forall_app. split.
      * eapply Forall_impl; [|exact H2]. simpl. intros; lia.
      * repeat constructor. unfold range_end. simpl. lia.
  - repeat split; try assumption.
    eapply Forall_impl; [|exact Hst]. simpl. intros; lia.
Qed.

Lemma silence_loop_inv (chunks : list Chunk) : forall (k : nat) (st : silence_state),
  silence_inv len (Z.of_nat k * len) st ->
  silence_inv len (Z.of_nat (k + length chunks) * len)
    (fold_left (silence_step thresh len) (combine (seq k (length chunks)) chunks) st).
Proof.
  induction chunks as [|c chunks IH]; intros k st Hinv; simpl.
  - now rewrite Nat.add_0_r.
  - replace (k + S (length chunks))%nat with (S k + length chunks)%nat by lia.
    apply IH. now apply silence_step_inv.
Qed.

Lemma detect_silence_shape (chunks : list Chunk) (audio_len : Z) :
  (Z.of_nat (length chunks) - 1) * len < audio_len ->
  let out := detect_silence_based_on_dB chunks audio_len thresh len in
  Forall (fun r => 0 <= range_start r /\ range_start r < range_end r
                   /\ range_end r <= audio_len) out
  /\ StronglySorted (separated_by len) out.
Proof.
  intros Hlen out. subst out. unfold detect_silence_based_on_dB, enumerate.
  pose proof (silence_loop_inv chunks 0 (mkSilence false 0 [])) as Hinv.
  simpl in Hinv. specialize (Hinv ltac:(repeat split; constructor)).
  destruct (fold_left _ _ _) as [ins st0 rs]. destruct Hinv as (Hs & Hwf & Hst).
  simpl in *. set (n := Z.of_nat (length chunks)) in *.
  destruct ins.
  - destruct Hst as (H0 & H1 & H2). split.
    + apply Forall_app. split.
      * rewrite Forall_forall in *. intros r Hr.
        destruct (Hwf r Hr). specialize (H2 r Hr). repeat split; try assumption. nia.
      * repeat constructor; unfold range_start, range_end; simpl; nia.
    + apply StronglySorted_snoc; [exact Hs|].
      eapply Forall_impl; [|exact H2]. intros r Hr. exact Hr.
  - split; [|exact Hs].
    rewrite Forall_forall in *. intros r Hr.
    destruct (Hwf r Hr). specialize (Hst r Hr). repeat split; try assumption. nia.
Qed.

Lemma loud_stays (l : list (nat * Chunk)) :
  Forall (fun ic => is_silent_chunk thresh (snd ic) = false) l ->
  fold_left (silence_step thresh len) l (mkSilence false 0 []) = mkSilence false 0 [].
Proof.
  induction l as [|[i c] l IH]; intros Hall; simpl; [reflexivity|].
  inversion Hall as [|? ? Hc Hl]; subst. simpl in Hc.
  rewrite Hc. simpl. now apply IH.
Qed.

End SilenceRanges.

(** X5. The silence detector returns well-formed ranges: for a positive
    chunk length and an audio whose last chunk starts before its end (as for
    [make_chunks]), every returned range is non-empty and within
    [0, len(audio)], and each range ends at least one chunk length before
    the next one starts (so they are in order and disjoint). *)
Theorem detect_silence_ranges_well_formed (chunks : list Chunk) (audio_len : Z)
    (silence_thresh_dB : Q) (chunk_length_ms : Z) :
  0 < chunk_length_ms ->
  (Z.of_nat (length chunks) - 1) * chunk_length_ms < audio_len ->
  let out := detect_silence_based_on_dB chunks audio_len silence_thresh_dB
               chunk_length_ms in
  Forall (well_formed_in audio_len) out
  /\ StronglySorted (separated_by chunk_length_ms) out.
Proof.
  intros Hlen Hn. now apply detect_silence_shape.
Qed.

Lemma detect_silence_ranges_well_formed_witness :
  let out := detect_silence_based_on_dB mixed_chunks 570 (-40)%Q 100 in
  out = [(0, 100); (200, 400); (500, 570)]
  /\ Forall (well_formed_in 570) out
  /\ StronglySorted (separated_by 100) out.
Proof.
  split; [reflexivity|].
  apply (detect_silence_ranges_well_formed mixed_chunks 570 (-40)%Q 100).
  - lia.
  - simpl. lia.
Defined.

(** Without a silent chunk there is no range: when every chunk has
    energy and a loudness at or above the threshold, the silence detector
    returns the empty list. *)
Lemma detect_silence_none_when_loud (chunks : list Chunk) (audio_len : Z)
    (silence_thresh_dB : Q) (chunk_length_ms : Z) :
  Forall (fun c => 0 < rms c /\ (silence_thresh_dB <= dBFS c)%Q) chunks ->
  detect_silence_based_on_dB chunks audio_len silence_thresh_dB chunk_length_ms = [].
Proof.
  intros Hall. unfold detect_silence_based_on_dB, enumerate.
  rewrite loud_stays; [reflexivity|].
  apply (Forall_combine_snd
           (fun c => is_silent_chunk silence_thresh_dB c = false)).
  eapply Forall_impl; [|exact Hall].
  intros c [Hr Hd]. unfold is_silent_chunk.
  destruct (Z.gtb_spec (rms c) 0); [|lia].
  destruct (Qltb (dBFS c) silence_thresh_dB) eqn:E; [|reflexivity].
  apply Qltb_true_iff in E. exfalso. exact (Qlt_not_le _ _ E Hd).
Qed.

(** X6. Audio-only planning composes: merging the detected silence ranges
    with a positive minimum duration and a gap tolerance [g >= 0] gives a
    valid ProcessingPlan for a source as long as the audio. *)
Theorem silence_plan_is_valid (chunks : list Chunk) (audio_len : Z)
    (silence_thresh_dB : Q) (chunk_length_ms d g : Z) :
  0 < chunk_length_ms ->
  (Z.of_nat (length chunks) - 1) * chunk_length_ms < audio_len ->
  0 <= audio_len -> 0 < d -> 0 <= g ->
  valid_plan audio_len
    (merge_and_optimize_ranges
       (detect_silence_based_on_dB chunks audio_len silence_thresh_dB chunk_length_ms)
       d g).
Proof.
  intros Hlen Hn Ha Hd Hg. apply merge_is_plan; try assumption.
  destruct (detect_silence_shape silence_thresh_dB chunk_length_ms Hlen
              chunks audio_len Hn) as [Hwf _].
  eapply Forall_impl; [|exact Hwf].
  intros r (H0 & _ & H1). split; assumption.
Qed.

Lemma silence_plan_is_valid_witness :
  let plan := merge_and_optimize_ranges
                (detect_silence_based_on_dB mixed_chunks 570 (-40)%Q 100) 150 100 in
  plan = [(200, 400)] /\ valid_plan 570 plan.
Proof.
  split; [reflexivity|].
  apply (silence_plan_is_valid mixed_chunks 570 (-40)%Q 100 150 100); simpl; lia.
Defined.

(* ===================================================================== *)
(** * Further properties of the summary statistics                        *)
(* ===================================================================== *)

Section Statistics.

Lemma fold_min_lower (t : list Q) : forall x : Q,
  (fold_left Qmin t x <= x)%Q
  /\ Forall (fun y => (fold_left Qmin t x <= y)%Q) t.
Proof.
  induction t as [|y t IH]; intros x; simpl.
  - split; [apply Qle_refl | constructor].
  - destruct (IH (Qmin x y)) as [H1 H2]. split; [|constructor].
    + eapply Qle_trans; [exact H1 | apply Q.le_min_l].
    + eapply Qle_trans; [exact H1 | apply Q.le_min_r].
    + exact H2.
Qed.

Lemma fold_max_upper (t : list Q) : forall x : Q,
  (x <= fold_left Qmax t x)%Q
  /\ Forall (fun y => (y <= fold_left Qmax t x)%Q) t.
Proof.
  induction t as [|y t IH]; intros x; simpl.
  - split; [apply Qle_refl | constructor].
  - destruct (IH (Qmax x y)) as [H1 H2]. split; [|constructor].
    + eapply Qle_trans; [apply Q.le_max_l | exact H1].
    + eapply Qle_trans; [apply Q.le_max_r | exact H1].
    + exact H2.
Qed.

Lemma fold_min_above (b : Q) (t : list Q) : forall x : Q,
  (b < x)%Q -> Forall (fun y => (b < y)%Q) t -> (b < fold_left Qmin t x)%Q.
Proof.
  induction t as [|y t IH]; intros x Hx Ht; simpl; [exact Hx|].
  inversion Ht as [|? ? Hy Ht']; subst.
  apply IH; [|exact Ht']. now apply Q.min_glb_lt.
Qed.

Lemma list_min_lower (l : list Q) : Forall (fun y => (list_min l <= y)%Q) l.
Proof.
  destruct l as [|x t]; [constructor|].
  destruct (fold_min_lower t x) as [H1 H2]. constructor; assumption.
Qed.

Lemma list_max_upper (l : list Q) : Forall (fun y => (y <= list_max l)%Q) l.
Proof.
  destruct l as [|x t]; [constructor|].
  destruct (fold_max_upper t x) as [H1 H2]. constructor; assumption.
Qed.

Lemma fold_min_in (t : list Q) : forall x : Q, In (fold_left Qmin t x) (x :: t).
Proof.
  induction t as [|y t IH]; intros x; simpl; [now left|].
  destruct (IH (Qmin x y)) as [H|H]; [|right; now right].
  rewrite <- H. unfold Qmin, GenericMinMax.gmin. destruct (x ?= y)%Q; auto.
Qed.

Lemma fold_max_in (t : list Q) : forall x : Q, In (fold_left Qmax t x) (x :: t).
Proof.
  induction t as [|y t IH]; intros x; simpl; [now left|].
  destruct (IH (Qmax x y)) as [H|H]; [|right; now right].
  rewrite <- H. unfold Qmax, GenericMinMax.gmax. destruct (x ?= y)%Q; auto.
Qed.

(** Minimum and maximum of a non-empty list are entries of it and bound
    every entry. *)
Lemma list_stats_between (l : list Q) :
  l <> [] ->
  In (list_min l) l /\ In (list_max l) l
  /\ Forall (fun y => (list_min l <= y)%Q /\ (y <= list_max l)%Q) l.
Proof.
  intros Hne. split; [|split].
  - destruct l as [|x t]; [congruence | apply fold_min_in].
  - destruct l as [|x t]; [congruence | apply fold_max_in].
  - pose proof (list_min_lower l) as H1. pose proof (list_max_upper l) as H2.
    rewrite Forall_forall in *. intros y Hy. split; auto.
Qed.

End Statistics.

(** X7. When at least one chunk is louder than the floor,
    [analyze_audio_dB] returns one sample per chunk, in order; minimum and
    maximum are samples above the floor and bound every sample that is
    above the floor; and the mean is [np.mean] of the samples above the
    floor only. *)
Theorem analyze_audible_statistics (np_mean : list Q -> Q) (chunks : list Chunk) :
  Exists (fun c => (floor_dB < chunk_loudness c)%Q) chunks ->
  let '(mn, mx, mean, samples) := analyze_audio_dB np_mean chunks in
  samples = map chunk_loudness chunks
  /\ length samples = length chunks
  /\ (floor_dB < mn)%Q
  /\ In mn samples /\ In mx samples
  /\ mean = np_mean (filter (fun db => Qgtb db floor_dB) samples)
  /\ forall s, In s samples -> (floor_dB < s)%Q -> (mn <= s)%Q /\ (s <= mx)%Q.
Proof.
  intros Hex. unfold analyze_audio_dB. rewrite chunk_loudness_list_map.
  set (samples := map chunk_loudness chunks).
  set (valid := filter (fun db => Qgtb db floor_dB) samples).
  assert (Hvalid : forall s, In s valid <-> In s samples /\ (floor_dB < s)%Q).
  { intros s. subst valid. rewrite filter_In, Qgtb_true_iff. reflexivity. }
  assert (Hne : valid <> []).
  { apply Exists_exists in Hex. destruct Hex as (c & Hin & Hc).
    intros E. assert (Hs : In (chunk_loudness c) valid).
    { apply Hvalid. split; [now apply in_map | exact Hc]. }
    rewrite E in Hs. exact Hs. }
  destruct (list_stats_between valid Hne) as (Hmn & Hmx & Hb).
  destruct valid as [|v0 vs] eqn:Ev; [congruence|].
  split; [reflexivity|]. split; [subst samples; apply length_map|].
  split; [|split; [|split; [|split]]].
  - exact (proj2 (proj1 (Hvalid _) Hmn)).
  - exact (proj1 (proj1 (Hvalid _) Hmn)).
  - exact (proj1 (proj1 (Hvalid _) Hmx)).
  - rewrite <- Ev. reflexivity.
  - intros s Hs Hgt. rewrite Forall_forall in Hb. apply Hb. apply Hvalid. now split.
Qed.

Lemma analyze_audible_statistics_witness :
  let '(mn, mx, mean, samples) := analyze_audio_dB exact_mean mixed_chunks in
  samples = map chunk_loudness mixed_chunks
  /\ length samples = length mixed_chunks
  /\ (floor_dB < mn)%Q
  /\ In mn samples /\ In mx samples
  /\ mean = exact_mean (filter (fun db => Qgtb db floor_dB) samples)
  /\ forall s, In s samples -> (floor_dB < s)%Q -> (mn <= s)%Q /\ (s <= mx)%Q.
Proof.
  apply (analyze_audible_statistics exact_mean mixed_chunks).
  apply Exists_cons_tl, Exists_cons_hd. reflexivity.
Defined.

(* ===================================================================== *)
(** * Properties of the frame difference                                  *)
(* ===================================================================== *)

Section FrameDiff.

Lemma Forall_skipn_keeps {A : Type} (P : A -> Prop) (n : nat) :
  forall l, Forall P l -> Forall P (skipn n l).
Proof.
  induction n as [|n IH]; intros l H; simpl; [exact H|].
  destruct H; [constructor | now apply IH].
Qed.

Lemma Forall_firstn_keeps {A : Type} (P : A -> Prop) (n : nat) :
  forall l, Forall P l -> Forall P (firstn n l).
Proof.
  induction n as [|n IH]; intros l H; simpl; [constructor|].
  destruct H; constructor; [assumption | now apply IH].
Qed.

Lemma Forall_py_slice {A : Type} (P : A -> Prop) (l : list A) (a b : Z) :
  Forall P l -> Forall P (py_slice l a b).
Proof.
  intros H. unfold py_slice. apply Forall_firstn_keeps, Forall_skipn_keeps, H.
Qed.

Lemma Forall2_map_both {A B C D : Type} (R : C -> D -> Prop) (f : A -> C) (g : B -> D) :
  forall l1 l2, Forall2 (fun a b => R (f a) (g b)) l1 l2 ->
  Forall2 R (map f l1) (map g l2).
Proof. induction 1; simpl; constructor; assumption. Qed.

Lemma Forall2_skipn {A B : Type} (R : A -> B -> Prop) (n : nat) :
  forall l1 l2, Forall2 R l1 l2 -> Forall2 R (skipn n l1) (skipn n l2).
Proof.
  induction n as [|n IH]; intros l1 l2 H; simpl; [exact H|].
  destruct H; [constructor | now apply IH].
Qed.

Lemma Forall2_firstn {A B : Type} (R : A -> B -> Prop) (n : nat) :
  forall l1 l2, Forall2 R l1 l2 -> Forall2 R (firstn n l1) (firstn n l2).
Proof.
  induction n as [|n IH]; intros l1 l2 H; simpl; [constructor|].
  destruct H; constructor; [assumption | now apply IH].
Qed.

Lemma Forall2_py_slice {A B : Type} (R : A -> B -> Prop) (l1 : list A) (l2 : list B)
    (a b : Z) :
  Forall2 R l1 l2 -> Forall2 R (py_slice l1 a b) (py_slice l2 a b).
Proof.
  intros H. unfold py_slice. rewrite <- (Forall2_length H).
  apply Forall2_firstn, Forall2_skipn, H.
Qed.

Lemma py_slice_length_eq {A : Type} (l1 l2 : list A) (a b : Z) :
  length l1 = length l2 -> length (py_slice l1 a b) = length (py_slice l2 a b).
Proof.
  intros H. unfold py_slice. rewrite !length_firstn, !length_skipn, H. reflexivity.
Qed.

Lemma crop_pixels_ok (f : Frame) (t b l r : Z) :
  pixels_ok f -> pixels_ok (crop f t b l r).
Proof.
  intros H. unfold pixels_ok, crop. apply Forall_map.
  apply Forall_py_slice. eapply Forall_impl; [|exact H].
  intros row Hrow. now apply Forall_py_slice.
Qed.

Lemma crop_same_shape (f1 f2 : Frame) (t b l r : Z) :
  same_shape f1 f2 -> same_shape (crop f1 t b l r) (crop f2 t b l r).
Proof.
  intros H. unfold same_shape, crop.
  apply Forall2_map_both.
  apply Forall2_py_slice. eapply Forall2_impl; [|exact H].
  intros r1 r2 Hr. now apply py_slice_length_eq.
Qed.

Lemma same_shape_refl (f : Frame) : same_shape f f.
Proof. induction f; constructor; auto. Qed.

(** The difference of two rows of one length exists, is entrywise between
    0 and 255 for [uint8] pixels, and is zero when the rows are equal. *)
Lemma absdiff_row_ok (r1 : list Z) : forall r2,
  length r1 = length r2 ->
  exists d, absdiff_row r1 r2 = Some d
    /\ length d = length r1
    /\ 0 <= fold_right Z.add 0 d
    /\ (Forall (fun p => 0 <= p <= 255) r1 -> Forall (fun p => 0 <= p <= 255) r2 ->
        fold_right Z.add 0 d <= 255 * Z.of_nat (length r1))
    /\ (r1 = r2 -> fold_right Z.add 0 d = 0).
Proof.
  induction r1 as [|a r1 IH]; intros [|b r2] Hlen; try discriminate.
  - exists []. simpl. repeat split; try lia; auto.
  - injection Hlen as Hlen.
    destruct (IH r2 Hlen) as (d & E & Hl & H0 & H255 & Heq).
    exists (Z.abs (a - b) :: d). simpl. rewrite E.
    split; [reflexivity|]. split; [now rewrite Hl|]. split; [lia|]. split.
    + intros H1 H2. inversion H1; subst. inversion H2; subst.
      specialize (H255 ltac:(assumption) ltac:(assumption)). lia.
    + intros [= -> ->]. rewrite (Heq eq_refl), Z.sub_diag. reflexivity.
Qed.

Lemma absdiff_ok (f1 : Frame) : forall f2,
  same_shape f1 f2 ->
  exists d, absdiff f1 f2 = Some d
    /\ 0 <= frame_sum d
    /\ (pixels_ok f1 -> pixels_ok f2 -> frame_sum d <= 255 * frame_size f1)
    /\ (f1 = f2 -> frame_sum d = 0).
Proof.
  induction f1 as [|r1 f1 IH]; intros f2 H; inversion H as [|? r2 ? f2' Hr Hf]; subst.
  - exists []. simpl. repeat split; try lia; auto.
  - destruct (IH f2' Hf) as (d & E & H0 & H255 & Heq).
    destruct (absdiff_row_ok r1 r2 Hr) as (dr & Er & Hl & Hr0 & Hr255 & Hreq).
    exists (dr :: d). cbn [absdiff]. rewrite Er, E.
    change (frame_sum (dr :: d)) with (fold_right Z.add 0 dr + frame_sum d).
    change (frame_size (r1 :: f1)) with (Z.of_nat (length r1) + frame_size f1).
    split; [reflexivity|]. split; [lia|]. split.
    + intros H1 H2. inversion H1; subst. inversion H2; subst.
      specialize (H255 ltac:(assumption) ltac:(assumption)).
      specialize (Hr255 ltac:(assumption) ltac:(assumption)). lia.
    + intros [= -> ->]. rewrite (Heq eq_refl), (Hreq eq_refl). reflexivity.
Qed.

Lemma frame_size_nonneg (f : Frame) : 0 <= frame_size f.
Proof. induction f; simpl; lia. Qed.

(** The three facts about one difference, for frames of one size. *)
Lemma central_diff_ok (f1 f2 : Frame) (crop_ratio : Q) :
  same_shape f1 f2 ->
  exists q, get_central_frame_diff (Some f1) (Some f2) crop_ratio = Some q
    /\ (pixels_ok f1 -> pixels_ok f2 -> (0 <= q)%Q /\ (q <= 255)%Q)
    /\ (f1 = f2 -> (q == 0)%Q).
Proof.
  intros Hs. unfold get_central_frame_diff.
  destruct (frame_shape f1) as [h w].
  set (t := py_int _). set (b := py_int _). set (l := py_int _). set (r := py_int _).
  destruct (Z.eqb_spec (frame_size (crop f1 t b l r)) 0) as [E0|E0].
  - exists 0%Q. repeat split; try reflexivity; lra.
  - destruct (absdiff_ok _ _ (crop_same_shape f1 f2 t b l r Hs))
      as (d & E & H0 & H255 & Heq).
    rewrite E. eexists. split; [reflexivity|].
    pose proof (frame_size_nonneg (crop f1 t b l r)) as Hsz.
    assert (Hpos : (0 < inject_Z (frame_size (crop f1 t b l r)))%Q).
    { change 0%Q with (inject_Z 0). rewrite <- Zlt_Qlt. lia. }
    split.
    + intros P1 P2.
      specialize (H255 (crop_pixels_ok _ t b l r P1) (crop_pixels_ok _ t b l r P2)).
      split.
      * apply Qle_shift_div_l; [exact Hpos|]. rewrite Qmult_0_l.
        change 0%Q with (inject_Z 0). rewrite <- Zle_Qle. exact H0.
      * apply Qle_shift_div_r; [exact Hpos|].
        change 255%Q with (inject_Z 255). rewrite <- inject_Z_mult, <- Zle_Qle.
        exact H255.
    + intros ->. rewrite (Heq eq_refl). unfold Qdiv. rewrite Qmult_0_l. reflexivity.
Qed.

End FrameDiff.

Section FrameSequence.

Lemma same_shape_sym (f1 f2 : Frame) : same_shape f1 f2 -> same_shape f2 f1.
Proof. induction 1; constructor; auto. Qed.

Lemma same_shape_trans (f1 f2 : Frame) :
  same_shape f1 f2 -> forall f3, same_shape f2 f3 -> same_shape f1 f3.
Proof.
  induction 1 as [|r1 r2 f1 f2 Hr _ IH]; intros f3 H23; inversion H23; subst;
    constructor; [congruence | now apply IH].
Qed.

Lemma consecutive_diffs_ok (crop_ratio : Q) (frames : list Frame) : forall prev,
  Forall (same_shape prev) frames ->
  exists diffs, consecutive_diffs prev frames crop_ratio = Some diffs
    /\ length diffs = length frames
    /\ (pixels_ok prev -> Forall pixels_ok frames ->
        Forall (fun q => (0 <= q)%Q /\ (q <= 255)%Q) diffs)
    /\ (Forall (eq prev) frames -> Forall (fun q => (q == 0)%Q) diffs).
Proof.
  induction frames as [|f frames IH]; intros prev Hall; cbn [consecutive_diffs].
  - exists []. repeat split; constructor.
  - inversion Hall as [|? ? Hf Hrest]; subst.
    destruct (central_diff_ok prev f crop_ratio Hf) as (q & Eq & Hb & Hz).
    assert (Hall' : Forall (same_shape f) frames).
    { eapply Forall_impl; [|exact Hrest].
      intros f' Hf'. exact (same_shape_trans _ _ (same_shape_sym _ _ Hf) _ Hf'). }
    destruct (IH f Hall') as (diffs & Ed & Hl & Hbs & Hzs).
    rewrite Eq, Ed. exists (q :: diffs).
    split; [reflexivity|]. split; [simpl; now rewrite Hl|]. split.
    + intros P HP. inversion HP; subst. constructor; auto.
    + intros HE. inversion HE as [|? ? E1 E2]; subst. constructor; [now apply Hz|].
      apply Hzs. exact E2.
Qed.

End FrameSequence.




(** X10. For a video whose frames all have the size of the first one, the
    frame iterator yields one difference per frame after the first (for n
    frames, n - 1 differences), each between 0 and 255 for [uint8]
    frames. *)
Theorem frame_diffs_one_per_pair (first : Frame) (frames : list Frame) (crop_ratio : Q) :
  Forall (same_shape first) frames ->
  Forall pixels_ok (first :: frames) ->
  exists diffs, frame_diffs (first :: frames) crop_ratio = Some diffs
    /\ length diffs = length frames
    /\ Forall (fun q => (0 <= q)%Q /\ (q <= 255)%Q) diffs.
Proof.
  intros Hs HP. inversion HP as [|? ? P0 Prest]; subst.
  destruct (consecutive_diffs_ok crop_ratio frames first Hs)
    as (diffs & E & Hl & Hb & _).
  exists diffs. split; [exact E|]. split; [exact Hl | now apply Hb].
Qed.

Lemma frame_diffs_one_per_pair_witness :
  exists diffs, frame_diffs [dark_frame; bright_frame; bright_frame] (1 # 4) = Some diffs
    /\ length diffs = 2%nat
    /\ Forall (fun q => (0 <= q)%Q /\ (q <= 255)%Q) diffs.
Proof.
  apply (frame_diffs_one_per_pair dark_frame [bright_frame; bright_frame] (1 # 4)).
  - repeat constructor.
  - unfold pixels_ok, dark_frame, bright_frame. repeat constructor; lia.
Defined.

(** X11. When the video opens and at least one difference was read,
    [analyze_video_motion] returns all differences as samples, minimum and
    maximum are samples and bound every sample, and the mean is [np.mean]
    of the samples. *)
Theorem analyze_video_motion_statistics (np_mean : list Q -> Q)
    (video : VideoCapture) (motion_diffs : list Q) :
  isOpened video = true -> motion_diffs <> [] ->
  let '(mn, mx, mean, samples) := analyze_video_motion np_mean video motion_diffs in
  samples = motion_diffs
  /\ In mn samples /\ In mx samples
  /\ mean = np_mean samples
  /\ forall s, In s samples -> (mn <= s)%Q /\ (s <= mx)%Q.
Proof.
  intros Ho Hne. unfold analyze_video_motion. rewrite Ho. simpl.
  destruct (list_stats_between motion_diffs Hne) as (Hmn & Hmx & Hb).
  destruct motion_diffs as [|q qs] eqn:E; [congruence|].
  split; [reflexivity|]. split; [exact Hmn|]. split; [exact Hmx|].
  split; [reflexivity|].
  intros s Hs. rewrite Forall_forall in Hb. now apply Hb.
Qed.

Lemma analyze_video_motion_statistics_witness :
  let '(mn, mx, mean, samples) :=
    analyze_video_motion exact_mean (mkCapture true 30 4) [1; 1; 5]%Q in
  samples = [1; 1; 5]%Q
  /\ In mn samples /\ In mx samples
  /\ mean = exact_mean samples
  /\ forall s, In s samples -> (mn <= s)%Q /\ (s <= mx)%Q.
Proof.
  apply (analyze_video_motion_statistics exact_mean (mkCapture true 30 4) [1; 1; 5]%Q).
  - reflexivity.
  - discriminate.
Defined.

(* ===================================================================== *)
(** * Further properties of the static-region detector                    *)
(* ===================================================================== *)

Section StaticRanges.

Variables (thresh fps : Q).
Hypothesis fps_pos : (0 < fps)%Q.

Lemma frame_to_ms_lt (a b : Z) : a < b -> (frame_to_ms a fps < frame_to_ms b fps)%Q.
Proof.
  intros H. unfold frame_to_ms.
  apply Qmult_lt_compat_r; [reflexivity|].
  unfold Qdiv. apply Qmult_lt_compat_r; [now apply Qinv_lt_0_compat|].
  now rewrite <- Zlt_Qlt.
Qed.

Lemma frame_to_ms_le (a b : Z) : a <= b -> (frame_to_ms a fps <= frame_to_ms b fps)%Q.
Proof.
  intros H. destruct (Z.eq_dec a b) as [->|Hne]; [apply Qle_refl|].
  apply Qlt_le_weak, frame_to_ms_lt. lia.
Qed.

Lemma frame_to_ms_0 : (frame_to_ms 0 fps == 0)%Q.
Proof. unfold frame_to_ms, Qdiv. change (inject_Z 0) with 0%Q. ring. Qed.

Lemma static_step_inv (N : Z) (diff : Q) (st : static_state) :
  1 <= N ->
  static_inv fps N st ->
  static_inv fps (N + 1) (static_step thresh fps st (N, diff)).
Proof.
  intros HN (Hs & Hwf & Hst).
  pose proof (frame_to_ms_lt N (N + 1) ltac:(lia)) as Hnext.
  unfold static_step, static_inv.
  destruct (Qltb diff thresh); destruct (is_in_static st) eqn:Ein; simpl; rewrite ?Ein.
  - destruct Hst as (H1 & H2). repeat split; try assumption; lia.
  - repeat split; try assumption; lia.
  - destruct Hst as (H1 & H2).
    pose proof (frame_to_ms_lt (static_start_frame st) N ltac:(lia)) as Hlt.
    pose proof (frame_to_ms_lt 0 (static_start_frame st) ltac:(lia)) as H0.
    rewrite frame_to_ms_0 in H0.
    split; [|split].
    + apply StronglySorted_snoc; [exact Hs|].
      eapply Forall_impl; [|exact H2]. intros r Hr. exact Hr.
    + apply Forall_app. split; [exact Hwf|]. repeat constructor; assumption.
    + apply Forall_app. split.
      * eapply Forall_impl; [|exact H2]. simpl. intros r Hr.
        eapply Qlt_trans; [exact Hr|]. eapply Qlt_trans; [exact Hlt | exact Hnext].
      * repeat constructor. exact Hnext.
  - repeat split; try assumption.
    eapply Forall_impl; [|exact Hst]. simpl. intros r Hr.
    eapply Qlt_trans; [exact Hr | exact Hnext].
Qed.

Lemma static_loop_inv (diffs : list Q) : forall (k : nat) (st : static_state),
  static_inv fps (Z.of_nat (S k)) st ->
  static_inv fps (Z.of_nat (S (k + length diffs)))
    (fold_left (static_step thresh fps)
       (combine (map (fun i => Z.of_nat (S i)) (seq k (length diffs))) diffs) st).
Proof.
  induction diffs as [|d diffs IH]; intros k st Hinv; simpl length.
  - simpl. now rewrite Nat.add_0_r.
  - cbn [seq map combine fold_left].
    replace (k + S (length diffs))%nat with (S k + length diffs)%nat by lia.
    apply IH.
    replace (Z.of_nat (S (S k))) with (Z.of_nat (S k) + 1) by lia.
    apply static_step_inv; [lia | exact Hinv].
Qed.

Lemma static_stays (l : list (Z * Q)) : forall (s : Z) (r : list (Q * Q)),
  Forall (fun fd => Qltb (snd fd) thresh = true) l ->
  fold_left (static_step thresh fps) l (mkStatic true s r) = mkStatic true s r.
Proof.
  induction l as [|[n d] l IH]; intros s r Hall; simpl; [reflexivity|].
  inversion Hall as [|? ? Hd Hl]; subst. simpl in Hd.
  rewrite Hd. simpl. now apply IH.
Qed.

Lemma moving_stays (l : list (Z * Q)) :
  Forall (fun fd => Qltb (snd fd) thresh = false) l ->
  fold_left (static_step thresh fps) l (mkStatic false 0 []) = mkStatic false 0 [].
Proof.
  induction l as [|[n d] l IH]; intros Hall; simpl; [reflexivity|].
  inversion Hall as [|? ? Hd Hl]; subst. simpl in Hd.
  rewrite Hd. simpl. now apply IH.
Qed.

End StaticRanges.

Lemma detect_static_shape (video : VideoCapture) (thresh : Q) (diffs : list Q) :
  Z.of_nat (length diffs) < frame_count video ->
  let fps := fps_or_fallback (CAP_PROP_FPS video) in
  let out := detect_central_static_frames video thresh diffs in
  Forall (fun r : Q * Q => (0 < fst r)%Q /\ (fst r < snd r)%Q
            /\ (snd r <= frame_to_ms (frame_count video) fps)%Q) out
  /\ StronglySorted (fun a b : Q * Q => (snd a < fst b)%Q) out.
Proof.
  intros Hn fps out. subst out. unfold detect_central_static_frames.
  destruct (isOpened video); simpl; [|split; constructor].
  fold fps. pose proof (fps_or_fallback_pos (CAP_PROP_FPS video)) as Hfps. fold fps in Hfps.
  unfold _iterate_frames_for_diff.
  pose proof (static_loop_inv thresh fps Hfps diffs 0 (mkStatic false 0 [])) as Hinv.
  specialize (Hinv ltac:(repeat split; constructor)). simpl Nat.add in Hinv.
  destruct (fold_left _ _ _) as [ins s0 rs]. destruct Hinv as (Hs & Hwf & Hst).
  simpl in *.
  assert (Hend : (frame_to_ms (Z.of_nat (S (length diffs))) fps
                  <= frame_to_ms (frame_count video) fps)%Q).
  { apply frame_to_ms_le; [exact Hfps | lia]. }
  destruct ins.
  - destruct Hst as (H1 & H2).
    pose proof (frame_to_ms_lt fps Hfps s0 (frame_count video) ltac:(lia)) as Hlt.
    pose proof (frame_to_ms_lt fps Hfps 0 s0 ltac:(lia)) as H0.
    rewrite (frame_to_ms_0 fps) in H0.
    split.
    + apply Forall_app. split.
      * rewrite Forall_forall in *. intros r Hr.
        destruct (Hwf r Hr). specialize (H2 r Hr). repeat split; try assumption.
        apply Qlt_le_weak. eapply Qlt_trans; [exact H2 | exact Hlt].
      * repeat constructor; simpl; try assumption. apply Qle_refl.
    + apply StronglySorted_snoc; [exact Hs|].
      eapply Forall_impl; [|exact H2]. intros r Hr. exact Hr.
  - split; [|exact Hs].
    rewrite Forall_forall in *. intros r Hr.
    destruct (Hwf r Hr). specialize (Hst r Hr). repeat split; try assumption.
    eapply Qle_trans; [apply Qlt_le_weak; exact Hst | exact Hend].
Qed.

(** X12. The static-region detector returns well-formed ranges: when the
    reported frame count exceeds the number of differences read, every
    returned range starts after time 0, is non-empty and ends no later than
    the time of the last frame, and each range ends before the next one
    starts, whatever frame rate is reported (the fallback included). *)
Theorem detect_static_ranges_well_formed (video : VideoCapture)
    (movement_thresh : Q) (diffs : list Q) :
  Z.of_nat (length diffs) < frame_count video ->
  let fps := fps_or_fallback (CAP_PROP_FPS video) in
  let out := detect_central_static_frames video movement_thresh diffs in
  Forall (fun r : Q * Q => (0 < fst r)%Q /\ (fst r < snd r)%Q
            /\ (snd r <= frame_to_ms (frame_count video) fps)%Q) out
  /\ StronglySorted (fun a b : Q * Q => (snd a < fst b)%Q) out.
Proof. apply detect_static_shape. Qed.

Lemma detect_static_ranges_well_formed_witness :
  let video := mkCapture true 25 7 in
  let out := detect_central_static_frames video 2 [1; 5; 1; 1; 7; 0]%Q in
  Forall (fun r : Q * Q => (0 < fst r)%Q /\ (fst r < snd r)%Q
            /\ (snd r <= frame_to_ms 7 25)%Q) out
  /\ StronglySorted (fun a b : Q * Q => (snd a < fst b)%Q) out.
Proof.
  apply (detect_static_ranges_well_formed (mkCapture true 25 7) 2 [1; 5; 1; 1; 7; 0]%Q).
  simpl. lia.
Defined.

Lemma static_all_below_one_range (video : VideoCapture) (movement_thresh : Q)
    (diffs : list Q) :
  isOpened video = true -> diffs <> [] ->
  Forall (fun d => (d < movement_thresh)%Q) diffs ->
  let fps := fps_or_fallback (CAP_PROP_FPS video) in
  detect_central_static_frames video movement_thresh diffs
  = [(frame_to_ms 1 fps, frame_to_ms (frame_count video) fps)].
Proof.
  intros Ho Hne Hall fps.
  destruct diffs as [|d diffs]; [congruence|].
  inversion Hall as [|? ? Hd Hrest]; subst.
  assert (Hfold : fold_left (static_step movement_thresh fps)
                    (_iterate_frames_for_diff (d :: diffs)) (mkStatic false 0 [])
                  = mkStatic true 1 []).
  { change (_iterate_frames_for_diff (d :: diffs))
      with ((1, d) :: combine (map (fun i => Z.of_nat (S i)) (seq 1 (length diffs))) diffs).
    cbn [fold_left].
    assert (Hstep : static_step movement_thresh fps (mkStatic false 0 []) (1, d)
                    = mkStatic true 1 []).
    { unfold static_step. rewrite (proj2 (Qltb_true_iff d movement_thresh) Hd).
      reflexivity. }
    rewrite Hstep. apply static_stays.
    apply (Forall_combine_snd (fun d => Qltb d movement_thresh = true)).
    eapply Forall_impl; [|exact Hrest]. intros q Hq. now apply Qltb_true_iff. }
  unfold detect_central_static_frames. rewrite Ho. cbn [negb]. cbv zeta.
  fold fps. rewrite Hfold. reflexivity.
Qed.

(** X13. A video that never moves is one static range: when the video
    opens, at least one difference was read and every difference is below
    the threshold, the detector returns exactly one range, from frame 1 to
    the reported frame count (at the reported or fallback frame rate). *)
Theorem detect_static_all_static (video : VideoCapture) (movement_thresh : Q)
    (diffs : list Q) :
  isOpened video = true -> diffs <> [] ->
  Forall (fun d => (d < movement_thresh)%Q) diffs ->
  let fps := fps_or_fallback (CAP_PROP_FPS video) in
  detect_central_static_frames video movement_thresh diffs
  = [(frame_to_ms 1 fps, frame_to_ms (frame_count video) fps)].
Proof. apply static_all_below_one_range. Qed.

Lemma detect_static_all_static_witness :
  detect_central_static_frames (mkCapture true 0 5) 2 [1; 0; 1; 1]%Q
  = [(frame_to_ms 1 30, frame_to_ms 5 30)].
Proof.
  apply (detect_static_all_static (mkCapture true 0 5) 2 [1; 0; 1; 1]%Q).
  - reflexivity.
  - discriminate.
  - repeat constructor.
Defined.

(** A video that always moves has no static range: when no difference
    is below the threshold, the detector returns the empty list. *)
Lemma detect_static_none_when_moving (video : VideoCapture) (movement_thresh : Q)
    (diffs : list Q) :
  Forall (fun d => (movement_thresh <= d)%Q) diffs ->
  detect_central_static_frames video movement_thresh diffs = [].
Proof.
  intros Hall. unfold detect_central_static_frames.
  destruct (isOpened video); simpl; [|reflexivity].
  rewrite moving_stays; [reflexivity|].
  unfold _iterate_frames_for_diff.
  apply (Forall_combine_snd (fun d => Qltb d movement_thresh = false)).
  eapply Forall_impl; [|exact Hall]. intros q Hq.
  destruct (Qltb q movement_thresh) eqn:E; [|reflexivity].
  apply Qltb_true_iff in E. exfalso. exact (Qlt_not_le _ _ E Hq).
Qed.

(** X14. A video of identical frames is static throughout: for at least
    two identical frames and a positive threshold, the frame iterator's
    differences make the detector return exactly one range, from frame 1 to
    the reported frame count. *)
Theorem frozen_video_is_one_static_range (video : VideoCapture) (frame : Frame)
    (n : nat) (crop_ratio movement_thresh : Q) :
  isOpened video = true -> (0 < movement_thresh)%Q ->
  exists diffs,
    frame_diffs (frame :: repeat frame (S n)) crop_ratio = Some diffs
    /\ detect_central_static_frames video movement_thresh diffs
       = [(frame_to_ms 1 (fps_or_fallback (CAP_PROP_FPS video)),
           frame_to_ms (frame_count video) (fps_or_fallback (CAP_PROP_FPS video)))].
Proof.
  intros Ho Ht.
  assert (Hs : Forall (same_shape frame) (repeat frame (S n))).
  { apply Forall_forall. intros f Hf. apply repeat_spec in Hf. subst.
    apply same_shape_refl. }
  assert (He : Forall (eq frame) (repeat frame (S n))).
  { apply Forall_forall. intros f Hf. apply repeat_spec in Hf. now subst. }
  destruct (consecutive_diffs_ok crop_ratio (repeat frame (S n)) frame Hs)
    as (diffs & E & Hl & _ & Hz).
  exists diffs. split; [exact E|].
  apply static_all_below_one_range; [exact Ho | |].
  - intros ->. rewrite repeat_length in Hl. discriminate.
  - eapply Forall_impl; [|exact (Hz He)]. intros q Hq. rewrite Hq. exact Ht.
Qed.

Lemma frozen_video_is_one_static_range_witness :
  exists diffs,
    frame_diffs (dark_frame :: repeat dark_frame 3) (1 # 4) = Some diffs
    /\ detect_central_static_frames (mkCapture true 25 4) (1 # 2) diffs
       = [(frame_to_ms 1 25, frame_to_ms 4 25)].
Proof.
  apply (frozen_video_is_one_static_range (mkCapture true 25 4) dark_frame 2
           (1 # 4) (1 # 2)); reflexivity.
Defined.

(* ===================================================================== *)
(** * Further properties of the filter graph                              *)
(* ===================================================================== *)

Section BuilderBookkeeping.

Lemma builder_init_ok (a : bool) (f : Q) : builder_ok (builder_init a f).
Proof. unfold builder_ok, builder_init. simpl. destruct a; repeat split. Qed.

Lemma add_clip_has_audio b s e : has_audio (add_clip b s e) = has_audio b.
Proof. unfold add_clip. destruct (s >=? e); reflexivity. Qed.

Lemma add_speedup_clip_has_audio b s e f v :
  has_audio (add_speedup_clip b s e f v) = has_audio b.
Proof. unfold add_speedup_clip. destruct (s >=? e); reflexivity. Qed.

Lemma map_Some_seq_S (n : nat) :
  map (@Some nat) (seq 0 (S n)) = map Some (seq 0 n) ++ [Some n].
Proof. now rewrite seq_S, map_app. Qed.

Lemma add_clip_ok b s e : builder_ok b -> builder_ok (add_clip b s e).
Proof.
  intros (Hseg & Hlab & Hv & Ha).
  unfold add_clip. destruct (s >=? e); [repeat split; assumption|].
  unfold builder_ok, segments in *.
  cbn [stream_counter video_filters audio_filters v_concat_inputs a_concat_inputs
       has_audio].
  rewrite flat_map_app, length_app, map_app, Hseg, Hlab, Hv, map_Some_seq_S, seq_S.
  split; [simpl; lia|]. split; [reflexivity|]. split; [reflexivity|].
  destruct (has_audio b).
  - destruct Ha as [Ha1 Ha2]. rewrite map_app, Ha1, Ha2. split; reflexivity.
  - exact Ha.
Qed.

Lemma add_speedup_clip_ok b s e f v :
  builder_ok b -> builder_ok (add_speedup_clip b s e f v).
Proof.
  intros (Hseg & Hlab & Hv & Ha).
  unfold add_speedup_clip. destruct (s >=? e); [repeat split; assumption|].
  unfold builder_ok, segments in *.
  cbn [stream_counter video_filters audio_filters v_concat_inputs a_concat_inputs
       has_audio].
  rewrite flat_map_app, length_app, map_app, Hseg, Hlab, Hv, map_Some_seq_S, seq_S.
  split; [simpl; lia|]. split; [reflexivity|]. split; [reflexivity|].
  destruct (has_audio b).
  - destruct Ha as [Ha1 Ha2]. rewrite map_app, Ha1, Ha2. split; reflexivity.
  - exact Ha.
Qed.

Lemma chunk_step_ok mode pre post f v st r :
  builder_ok (fst st) -> builder_ok (fst (chunk_step mode pre post f v st r)).
Proof.
  destruct st as [b last], r as [s e]. simpl. intros H.
  destruct mode; [|apply add_speedup_clip_ok]; now apply add_clip_ok.
Qed.

Lemma chunk_step_has_audio mode pre post f v st r :
  has_audio (fst (chunk_step mode pre post f v st r)) = has_audio (fst st).
Proof.
  destruct st as [b last], r as [s e]. simpl.
  destruct mode; rewrite ?add_speedup_clip_has_audio; apply add_clip_has_audio.
Qed.

Lemma chunk_loop_ok mode pre post f v ranges : forall st,
  builder_ok (fst st) ->
  builder_ok (fst (fold_left (chunk_step mode pre post f v) ranges st))
  /\ has_audio (fst (fold_left (chunk_step mode pre post f v) ranges st))
     = has_audio (fst st).
Proof.
  induction ranges as [|r ranges IH]; intros st H; simpl; [split; auto|].
  destruct (IH (chunk_step mode pre post f v st r) (chunk_step_ok _ _ _ _ _ _ _ H))
    as [H1 H2].
  split; [exact H1|]. rewrite H2. apply chunk_step_has_audio.
Qed.

Lemma _process_chunk_builder_ok video ranges mode pre post dur config :
  let b := _process_chunk_builder video ranges mode pre post dur config in
  builder_ok b /\ has_audio b = clip_has_audio video.
Proof.
  unfold _process_chunk_builder.
  pose proof (chunk_loop_ok mode (pre * 1000) (post * 1000)
                (speedup_factor config) (speedup_volume_percent config / 100)%Q ranges
                (builder_init (clip_has_audio video) (builder_fps (clip_fps video)), 0)
                (builder_init_ok _ _)) as [H1 H2].
  destruct (fold_left _ ranges _) as [b last]. simpl in *.
  split; [now apply add_clip_ok|]. now rewrite add_clip_has_audio.
Qed.

(** How many streams a loop adds at most. *)
Lemma add_clip_counter b s e :
  (stream_counter b <= stream_counter (add_clip b s e) <= S (stream_counter b))%nat.
Proof. unfold add_clip. destruct (s >=? e); simpl; lia. Qed.

Lemma add_speedup_clip_counter b s e f v :
  (stream_counter b <= stream_counter (add_speedup_clip b s e f v)
   <= S (stream_counter b))%nat.
Proof. unfold add_speedup_clip. destruct (s >=? e); simpl; lia. Qed.

Lemma chunk_loop_counter mode pre post f v ranges : forall b last,
  (stream_counter (fst (fold_left (chunk_step mode pre post f v) ranges (b, last)))
   <= stream_counter b
      + (match mode with ModeCut => 1 | ModeSpeedup => 2 end) * length ranges)%nat.
Proof.
  induction ranges as [|[s e] ranges IH]; intros b last; simpl fold_left.
  - simpl. lia.
  - cbn [chunk_step]. destruct mode.
    + specialize (IH (add_clip b last (s - pre)) e).
      pose proof (add_clip_counter b last (s - pre)). simpl length. lia.
    + specialize (IH (add_speedup_clip (add_clip b last (s - pre))
                        (s - pre) (e + post) f v) e).
      pose proof (add_clip_counter b last (s - pre)).
      pose proof (add_speedup_clip_counter (add_clip b last (s - pre))
                    (s - pre) (e + post) f v).
      simpl length. lia.
Qed.

End BuilderBookkeeping.

(** X15. The filter graph of [_process_chunk] is consistently labelled.
    [build] returns as stream count the number of emitted segments; when it
    is not 0, the video graph is the trim filters, writing to the labels
    0 .. n-1 in order, followed by one concat node that reads exactly those
    labels and fixes the builder's frame rate; with an audio stream the
    audio graph mirrors it, without one it is empty; with no segment both
    graphs are empty. *)
Theorem build_graph_consistent (video : VideoFileClip) (ranges : list TimeRange)
    (mode : processing_mode) (pre post dur : Z) (config : Config) :
  let b := _process_chunk_builder video ranges mode pre post dur config in
  let '(video_fc, audio_fc, n) := build b in
  n = length (segments b)
  /\ (n = 0%nat -> video_fc = [] /\ audio_fc = [])
  /\ (n <> 0%nat ->
      exists trims,
        video_fc = trims ++ [VConcat (seq 0 n) n (builder_fps (clip_fps video))]
        /\ map video_label trims = map Some (seq 0 n))
  /\ (n <> 0%nat -> clip_has_audio video = true ->
      exists atrims,
        audio_fc = atrims ++ [AConcat (seq 0 n) n]
        /\ map audio_label atrims = map Some (seq 0 n))
  /\ (clip_has_audio video = false -> audio_fc = []).
Proof.
  intros b.
  destruct (_process_chunk_builder_ok video ranges mode pre post dur config)
    as [(Hseg & Hlab & Hv & Ha) Haud]. fold b in Hseg, Hlab, Hv, Ha, Haud.
  pose proof (_process_chunk_builder_fps video ranges mode pre post dur config) as Hfps.
  fold b in Hfps.
  unfold build. destruct (Nat.eqb_spec (stream_counter b) 0) as [E|E].
  - repeat split; try reflexivity; congruence.
  - rewrite Haud in *. rewrite Hv, Hfps.
    split; [now rewrite Hseg|]. split; [congruence|]. split; [|split].
    + intros _. exists (video_filters b). split; [reflexivity | exact Hlab].
    + intros _ Ht. rewrite Ht in *. destruct Ha as [Ha1 Ha2]. rewrite Ha1.
      assert (Hn : nonempty (seq 0 (stream_counter b)) = true).
      { destruct (stream_counter b); [congruence | reflexivity]. }
      rewrite Hn. simpl. exists (audio_filters b). split; [reflexivity | exact Ha2].
    + intros Hf. rewrite Hf. reflexivity.
Qed.

(** X16. The backend selector's estimate never falls short: the number of
    streams [_process_chunk] really concatenates is at most [2*N+1] for [N]
    plan ranges, the value [cut_or_speedup_video] compares with the cap, and
    at most [N+1] in cut mode. *)
Theorem stream_count_within_estimate (video : VideoFileClip) (ranges : list TimeRange)
    (mode : processing_mode) (pre post dur : Z) (config : Config) (audio : bool) :
  let n := stream_counter (_process_chunk_builder video ranges mode pre post dur config) in
  Z.of_nat n <= estimate_stream_count audio ranges
  /\ (mode = ModeCut -> (n <= length ranges + 1)%nat).
Proof.
  unfold _process_chunk_builder.
  pose proof (chunk_loop_counter mode (pre * 1000) (post * 1000)
                (speedup_factor config) (speedup_volume_percent config / 100)%Q ranges
                (builder_init (clip_has_audio video) (builder_fps (clip_fps video))) 0)
    as H.
  destruct (fold_left _ ranges _) as [b last]. simpl in H.
  pose proof (add_clip_counter b last dur) as Hc.
  assert (He : estimate_stream_count audio ranges = Z.of_nat (length ranges) * 2 + 1).
  { unfold estimate_stream_count. now destruct audio. }
  rewrite He. split.
  - destruct mode; lia.
  - intros ->. lia.
Qed.

Section MoviePyLoop.

Variables (mode : processing_mode) (pre_ms post_ms dur : Z) (factor volume : Q).






End MoviePyLoop.

Section TwoPaths.

Variables (pre_ms post_ms dur : Z) (factor factor_fast vol_fast volume : Q).




End TwoPaths.

Section NoEmptySegment.

Variables (mode : processing_mode) (pre_ms post_ms dur : Z) (factor volume : Q).




End NoEmptySegment.




(** A plan that reaches past the end of the video: the clip between its
    two ranges would start after the end, [subclip] raises, and the MoviePy
    path concatenates nothing, while the fast path builds its graph. *)
Example plan_past_the_end_raises :
  let video := mkClip (Some 30%Q) true 10000 in
  let plan := [(1000, 12000); (13000, 14000)] in
  moviepy_raises video plan ModeCut 0 0 5 (1 # 2) = true
  /\ moviepy_clips video plan ModeCut 0 0 5 (1 # 2) = [Subclip 0 1000]
  /\ segments (_process_chunk_builder video plan ModeCut 0 0 10000 example_config)
     = [PASSTHROUGH 0 1000; PASSTHROUGH 12000 13000]
  /\ run (_process_with_moviepy (mkWorld (Some video) (fun _ => ExitZero) (fun _ => true))
            plan ModeCut 0 0 example_config 5 (1 # 2))
     = (inr ValueError, [CallMoviePy]).
Proof. repeat split. Qed.



(** With a negative post-margin the agreement of the two paths in speed-up
    mode is lost, although every widened range ends within the video: a
    range may end after the video does, and the [subclip] that starts there
    raises. *)
Example negative_post_margin_raises :
  let video := mkClip (Some 30%Q) true 10000 in
  let plan := [(1000, 12000); (7100, 9000)] in
  margin_fits (-5 * 1000) 0 (clip_duration_ms video) plan
  /\ Forall (fun r => range_end r + -5 * 1000 <= clip_duration_ms video) plan
  /\ moviepy_raises video plan ModeSpeedup (-5) (-5) 5 (1 # 2) = true
  /\ moviepy_clips video plan ModeSpeedup (-5) (-5) 5 (1 # 2)
     = [Subclip 0 6000; SpedUp 6000 7000 5 (1 # 2)].
Proof.
  split; [simpl; lia|]. split; [|split; reflexivity].
  repeat constructor; unfold range_end; simpl; lia.
Qed.


(* ===================================================================== *)
(** * Further properties of the atempo chain                              *)
(* ===================================================================== *)

Section AtempoStages.





End AtempoStages.


Example atempo_chain_of_123456 :
  Forall2 Qeq (_build_atempo_chain 123456) [100; 100; 12.3456]%Q.
Proof. vm_compute. repeat constructor. Qed.

(* ===================================================================== *)
(** * Further properties of the render controller                         *)
(* ===================================================================== *)





(** X23. An unreadable source with the fast path enabled escapes as an
    exception: [cut_or_speedup_video] opens the file before its [try], so it
    raises, shows no dialog, runs no step and does not fall back to
    MoviePy. *)
Theorem unreadable_source_raises_on_fast_path (w : World) (ranges : list TimeRange)
    (mode : processing_mode) (pre post : Z) (config : Config) (f v : Q) :
  source w = None -> use_ffmpeg_direct config = true ->
  run (cut_or_speedup_video w ranges mode pre post config f v)
  = (inr ClipOpenError, []).
Proof.
  intros Hsrc Hcfg.
  unfold run, cut_or_speedup_video, select_backend, open_clip, bind, raise.
  now rewrite Hcfg, Hsrc.
Qed.

Lemma unreadable_source_raises_on_fast_path_witness :
  run (cut_or_speedup_video world_unreadable example_plan ModeCut 2 1
         example_config 5 (1 # 2))
  = (inr ClipOpenError, []).
Proof.
  apply (unreadable_source_raises_on_fast_path world_unreadable example_plan
           ModeCut 2 1 example_config 5 (1 # 2)); reflexivity.
Defined.

Section Encoders.

Variable w : World.



End Encoders.





(** X26. A graph without segments is reported as done: for a job started
    on the fast path whose filter graph has no segment (for instance a cut
    plan that covers the whole video), [_process_chunk] returns [True]
    without running any FFmpeg step, and the success dialog is the only
    thing that happens. *)
Theorem empty_graph_reports_done (w : World) (video : VideoFileClip)
    (ranges : list TimeRange) (mode : processing_mode) (pre post : Z)
    (config : Config) (f v : Q) :
  result_of (select_backend w config ranges) = inl true ->
  source w = Some video ->
  segments (_process_chunk_builder video ranges mode pre post
              (clip_duration_ms video) config) = [] ->
  run (cut_or_speedup_video w ranges mode pre post config f v)
  = (inl tt, [DialogDone]).
Proof.
  intros Hsel Hsrc Hseg.
  destruct (select_backend_fast _ _ _ Hsel) as (video' & Hsrc' & _ & _ & Hs).
  destruct (_process_chunk_builder_ok video ranges mode pre post
              (clip_duration_ms video) config) as [(Hn & _) _].
  rewrite Hseg in Hn. simpl in Hn.
  unfold run, cut_or_speedup_video, bind at 1. rewrite Hs.
  unfold try_except, fast_path_attempt, _process_chunk, open_clip, bind.
  rewrite Hsrc. unfold ret at 1 2.
  unfold build. rewrite <- Hn. reflexivity.
Qed.

Lemma empty_graph_reports_done_witness :
  run (cut_or_speedup_video world_video_pass_fails [(0, 60000)] ModeCut 0 1
         example_config 5 (1 # 2))
  = (inl tt, [DialogDone]).
Proof.
  apply (empty_graph_reports_done world_video_pass_fails example_video
           [(0, 60000)] ModeCut 0 1 example_config 5 (1 # 2)); reflexivity.
Defined.

(* ===================================================================== *)
(** * Properties of [ensure_unique_filename]                              *)
(* ===================================================================== *)

Section UniqueFilename.

Lemma string_length_append (s1 s2 : string) :
  String.length (s1 ++ s2) = (String.length s1 + String.length s2)%nat.
Proof. induction s1 as [|c s1 IH]; simpl; [reflexivity | now rewrite IH]. Qed.

Lemma string_append_inv_head (s a b : string) :
  (s ++ a)%string = (s ++ b)%string -> a = b.
Proof.
  induction s as [|c s IH]; simpl; intros H; [exact H|].
  injection H as H. now apply IH.
Qed.

Lemma string_append_inv_tail (s : string) : forall a b : string,
  (a ++ s)%string = (b ++ s)%string -> a = b.
Proof.
  induction a as [|c a IH]; intros [|c' b] H; simpl in H.
  - reflexivity.
  - exfalso. apply (f_equal String.length) in H. simpl in H.
    rewrite string_length_append in H. lia.
  - exfalso. apply (f_equal String.length) in H. simpl in H.
    rewrite string_length_append in H. lia.
  - injection H as -> H. f_equal. now apply IH.
Qed.

Lemma NoDup_map_injective {A B : Type} (f : A -> B) (l : list A) :
  (forall a b, f a = f b -> a = b) -> NoDup l -> NoDup (map f l).
Proof.
  intros Hinj. induction 1 as [|x l Hx _ IH]; simpl; constructor; [|exact IH].
  intros Hin. apply in_map_iff in Hin. destruct Hin as (y & Hy & Hin).
  apply Hinj in Hy. now subst.
Qed.

Lemma str_of_nat_inj (n m : nat) : str_of_nat n = str_of_nat m -> n = m.
Proof.
  unfold str_of_nat. intros H.
  apply DecimalNat.Unsigned.to_uint_inj.
  apply (f_equal DecimalString.NilEmpty.uint_of_string) in H.
  rewrite !DecimalString.NilEmpty.usu in H. now injection H.
Qed.

Variables (listing : list string) (base ext : string).

Lemma numbered_inj (n m : nat) : numbered base ext n = numbered base ext m -> n = m.
Proof.
  unfold numbered. intros H.
  apply string_append_inv_head in H. apply string_append_inv_head in H.
  apply string_append_inv_tail in H. now apply str_of_nat_inj.
Qed.

Lemma path_exists_In (name : string) : path_exists listing name = true <-> In name listing.
Proof.
  unfold path_exists. rewrite existsb_exists. split.
  - intros (x & Hin & E). apply String.eqb_eq in E. now subst.
  - intros H. exists name. split; [exact H | apply String.eqb_refl].
Qed.

(** Among the names numbered 1 to [n + 1] one is not in a directory of
    [n] entries. *)
Lemma some_number_is_free :
  exists k, (1 <= k <= S (length listing))%nat
            /\ path_exists listing (numbered base ext k) = false.
Proof.
  set (cands := map (numbered base ext) (seq 1 (S (length listing)))).
  destruct (Forall_Exists_dec (fun c => In c listing)
              (fun c => in_dec string_dec c listing) cands) as [Hall|Hex].
  - exfalso.
    assert (Hnd : NoDup cands).
    { subst cands. apply NoDup_map_injective; [|apply seq_NoDup].
      intros a b. apply numbered_inj. }
    assert (Hincl : incl cands listing).
    { intros c Hc. rewrite Forall_forall in Hall. now apply Hall. }
    pose proof (NoDup_incl_length Hnd Hincl) as Hlen.
    subst cands. rewrite length_map, length_seq in Hlen. lia.
  - apply Exists_exists in Hex. destruct Hex as (c & Hc & Hfree).
    subst cands. apply in_map_iff in Hc. destruct Hc as (k & <- & Hk).
    apply in_seq in Hk. exists k. split; [lia|].
    destruct (path_exists listing (numbered base ext k)) eqn:E; [|reflexivity].
    apply path_exists_In in E. contradiction.
Qed.

Lemma unique_loop_finds (d : nat) : forall (fuel c : nat) (u : string),
  path_exists listing (numbered base ext (c + d)) = false ->
  (d + 2 <= fuel)%nat ->
  unique_loop fuel listing base ext c u <> None.
Proof.
  induction d as [|d IH]; intros fuel c u Hfree Hfuel.
  - destruct fuel as [|[|fuel]]; try lia. simpl.
    destruct (path_exists listing u); [|discriminate].
    rewrite Nat.add_0_r in Hfree. rewrite Hfree. discriminate.
  - destruct fuel as [|fuel]; [lia|]. simpl.
    destruct (path_exists listing u); [|discriminate].
    apply IH; [|lia]. now replace (S c + d)%nat with (c + S d)%nat by lia.
Qed.

(** The loop of [ensure_unique_filename] always ends within its fuel. *)
Lemma unique_loop_terminates (filename : string) :
  unique_loop (S (S (length listing))) listing base ext 1 filename <> None.
Proof.
  destruct some_number_is_free as (k & Hk & Hfree).
  apply (unique_loop_finds (k - 1)); [|lia].
  now replace (1 + (k - 1))%nat with k by lia.
Qed.

(** What the loop returns: a name that does not exist; either the name it
    started with, or the first numbered name that is free. *)
Lemma unique_loop_result (fuel : nat) : forall (c : nat) (u name : string),
  unique_loop fuel listing base ext c u = Some name ->
  path_exists listing name = false
  /\ (name = u
      \/ exists k, (c <= k)%nat /\ name = numbered base ext k
                   /\ path_exists listing u = true
                   /\ forall j, (c <= j < k)%nat ->
                                path_exists listing (numbered base ext j) = true).
Proof.
  induction fuel as [|fuel IH]; intros c u name H; simpl in H; [discriminate|].
  destruct (path_exists listing u) eqn:E.
  - destruct (IH _ _ _ H) as [Hfree [->|(k & Hk & -> & Hex & Hbelow)]].
    + split; [exact Hfree|]. right. exists c. repeat split; auto. intros j Hj. lia.
    + split; [exact Hfree|]. right. exists k. repeat split; auto; try lia.
      intros j Hj. destruct (Nat.eq_dec j c) as [->|Hne]; [exact Hex|].
      apply Hbelow. lia.
  - injection H as <-. split; [exact E | now left].
Qed.

End UniqueFilename.

(** X27. [ensure_unique_filename] returns the first free candidate and
    never the name of an existing entry: for every directory listing, file
    name and [splitext], the returned name does not exist in the directory;
    it is the file name itself when that is free, and otherwise [base_k ext]
    for the smallest [k >= 1] whose name is free, every smaller number being
    taken. *)
Theorem unique_filename_is_first_free (splitext : string -> string * string)
    (listing : list string) (filename : string) :
  let '(base, ext) := splitext filename in
  let name := ensure_unique_filename splitext listing filename in
  path_exists listing name = false
  /\ ((path_exists listing filename = false /\ name = filename)
      \/ (path_exists listing filename = true
          /\ exists k, (1 <= k)%nat /\ name = numbered base ext k
                       /\ forall j, (1 <= j < k)%nat ->
                                    path_exists listing (numbered base ext j) = true)).
Proof.
  unfold ensure_unique_filename. destruct (splitext filename) as [base ext].
  pose proof (unique_loop_terminates listing base ext filename) as Hterm.
  destruct (unique_loop _ listing base ext 1 filename) as [name|] eqn:E; [|congruence].
  destruct (unique_loop_result listing base ext _ _ _ _ E)
    as [Hfree [->|(k & Hk & -> & Hex & Hbelow)]].
  - split; [exact Hfree|]. left. split; [exact Hfree | reflexivity].
  - split; [exact Hfree|]. right. split; [exact Hex|]. exists k. repeat split; auto.
Qed.

Example unique_filename_example :
  ensure_unique_filename splitext_mp4
    ["clip.mp4"; "clip_1.mp4"; "other.mp4"; "clip_2.mp4"]%string "clip.mp4"
  = "clip_3.mp4"%string.
Proof. reflexivity. Qed.

(* ===================================================================== *)
(** * The merger does not depend on the order of its input                *)
(* ===================================================================== *)

Section MergerOrder.

Variables (d g : Z).

Lemma ties_insert (z : TimeRange) (l l' : list TimeRange) :
  same_up_to_ties l l' ->
  same_up_to_ties (insert_by_start z l) (insert_by_start z l').
Proof.
  induction 1 as [l | x y l Hxy | w l l' H IH | l1 l2 l3 _ IH1 _ IH2].
  - apply ties_refl.
  - simpl.
    destruct (Z.leb_spec (range_start z) (range_start x));
      destruct (Z.leb_spec (range_start z) (range_start y)); try lia.
    + apply ties_skip. now apply ties_swap.
    + now apply ties_swap.
  - simpl. destruct (range_start z <=? range_start w).
    + apply ties_skip. now apply ties_skip.
    + apply ties_skip. exact IH.
  - eapply ties_trans; eassumption.
Qed.

Lemma ties_insert_insert (x y : TimeRange) (l : list TimeRange) :
  same_up_to_ties (insert_by_start x (insert_by_start y l))
                  (insert_by_start y (insert_by_start x l)).
Proof.
  induction l as [|t l IH]; simpl.
  - destruct (Z.leb_spec (range_start x) (range_start y));
      destruct (Z.leb_spec (range_start y) (range_start x)); try lia.
    + apply ties_swap. lia.
    + apply ties_refl.
    + apply ties_refl.
  - destruct (Z.leb_spec (range_start y) (range_start t)) as [Hy|Hy];
      destruct (Z.leb_spec (range_start x) (range_start t)) as [Hx|Hx]; simpl;
      destruct (Z.leb_spec (range_start x) (range_start y)) as [Hxy|Hxy];
      destruct (Z.leb_spec (range_start y) (range_start x)) as [Hyx|Hyx];
      try lia;
      repeat match goal with
      | |- context [range_start ?a <=? range_start ?b] =>
          destruct (Z.leb_spec (range_start a) (range_start b)); try lia
      end;
      try apply ties_refl;
      try (apply ties_swap; lia);
      try (apply ties_skip; exact IH).
Qed.

Lemma ties_sorted (l l' : list TimeRange) :
  Permutation l l' -> same_up_to_ties (sorted_by_start l) (sorted_by_start l').
Proof.
  induction 1 as [| x l l' _ IH | x y l | l1 l2 l3 _ IH1 _ IH2]; simpl.
  - apply ties_refl.
  - now apply ties_insert.
  - apply ties_insert_insert.
  - eapply ties_trans; eassumption.
Qed.

Lemma ties_Permutation (l l' : list TimeRange) :
  same_up_to_ties l l' -> Permutation l l'.
Proof.
  induction 1; [reflexivity | apply perm_swap | now apply perm_skip
               | eapply perm_trans; eassumption].
Qed.

Lemma ties_merge_loop (l l' : list TimeRange) :
  same_up_to_ties l l' ->
  Forall (reaches_itself g) l ->
  forall cs ce acc, merge_loop d g cs ce l acc = merge_loop d g cs ce l' acc.
Proof.
  induction 1 as [l | [s ex] [s' ey] l Hxy | [zs ze] l l' _ IH | l1 l2 l3 H12 IH1 _ IH2];
    intros Hall cs ce acc.
  - reflexivity.
  - unfold range_start in Hxy; simpl in Hxy. subst s'.
    inversion Hall as [|? ? Hx Hall']; subst. inversion Hall' as [|? ? Hy _]; subst.
    unfold reaches_itself, range_start, range_end in Hx, Hy; simpl in Hx, Hy.
    simpl. destruct (Z.ltb_spec s (ce + g)) as [H|H].
    + destruct (Z.ltb_spec s (Z.max ce ex + g)); [|lia].
      destruct (Z.ltb_spec s (Z.max ce ey + g)); [|lia].
      replace (Z.max (Z.max ce ex) ey) with (Z.max (Z.max ce ey) ex) by lia.
      reflexivity.
    + destruct (Z.ltb_spec s (ex + g)); [|lia].
      destruct (Z.ltb_spec s (ey + g)); [|lia].
      replace (Z.max ex ey) with (Z.max ey ex) by lia. reflexivity.
  - inversion Hall as [|? ? _ Hall']; subst.
    simpl. destruct (zs <? ce + g); now apply IH.
  - rewrite IH1 by assumption. apply IH2.
    eapply Permutation_Forall; [|exact Hall]. now apply ties_Permutation.
Qed.

Lemma ties_merge_sorted (l l' : list TimeRange) :
  same_up_to_ties l l' ->
  Forall (reaches_itself g) l ->
  merge_sorted d g l = merge_sorted d g l'.
Proof.
  induction 1 as [l | [s ex] [s' ey] l Hxy | [zs ze] l l' H _ | l1 l2 l3 H12 IH1 _ IH2];
    intros Hall.
  - reflexivity.
  - unfold range_start in Hxy; simpl in Hxy. subst s'.
    inversion Hall as [|? ? Hx Hall']; subst. inversion Hall' as [|? ? Hy _]; subst.
    unfold reaches_itself, range_start, range_end in Hx, Hy; simpl in Hx, Hy.
    simpl. destruct (Z.ltb_spec s (ex + g)); [|lia].
    destruct (Z.ltb_spec s (ey + g)); [|lia].
    replace (Z.max ex ey) with (Z.max ey ex) by lia. reflexivity.
  - inversion Hall as [|? ? _ Hall']; subst.
    simpl. now apply ties_merge_loop.
  - rewrite IH1 by assumption. apply IH2.
    eapply Permutation_Forall; [|exact Hall]. now apply ties_Permutation.
Qed.

Lemma merge_is_merge_sorted (l : list TimeRange) :
  merge_and_optimize_ranges l d g = merge_sorted d g (sorted_by_start l).
Proof.
  unfold merge_and_optimize_ranges, merge_sorted.
  destruct l as [|r l]; reflexivity.
Qed.

Lemma merge_permutation (l l' : list TimeRange) :
  Permutation l l' ->
  Forall (reaches_itself g) l ->
  merge_and_optimize_ranges l d g = merge_and_optimize_ranges l' d g.
Proof.
  intros Hp Hall. rewrite !merge_is_merge_sorted.
  apply ties_merge_sorted; [apply ties_sorted; exact Hp|].
  apply Forall_forall. intros r Hr. apply (proj1 (In_sorted_by_start r l)) in Hr.
  rewrite Forall_forall in Hall. now apply Hall.
Qed.

End MergerOrder.

(** Two ranges of equal start, one of them empty: the order matters. *)
Example merge_order_matters_for_empty_ranges :
  merge_and_optimize_ranges [(0, 0); (0, 10)] 0 0
  <> merge_and_optimize_ranges [(0, 10); (0, 0)] 0 0.
Proof. vm_compute. discriminate. Qed.

(** X28. The merger does not depend on the order of its input: for non-empty
    ranges and a gap tolerance [g >= 0], any rearrangement of the input
    list gives the same output. *)
Theorem merge_order_irrelevant (ranges ranges' : list TimeRange) (d g : Z) :
  Permutation ranges ranges' ->
  0 <= g ->
  Forall (fun r => range_start r < range_end r) ranges ->
  merge_and_optimize_ranges ranges d g = merge_and_optimize_ranges ranges' d g.
Proof.
  intros Hp Hg Hall. apply merge_permutation; [exact Hp|].
  eapply Forall_impl; [|exact Hall]. unfold reaches_itself. intros; lia.
Qed.

Lemma merge_order_irrelevant_witness :
  merge_and_optimize_ranges [(700, 1500); (0, 400); (450, 800); (0, 300)] 500 100
  = merge_and_optimize_ranges [(0, 300); (450, 800); (0, 400); (700, 1500)] 500 100.
Proof.
  apply (merge_order_irrelevant
           [(700, 1500); (0, 400); (450, 800); (0, 300)]
           [(0, 300); (450, 800); (0, 400); (700, 1500)] 500 100).
  - apply perm_trans with (l' := [(0, 300); (700, 1500); (0, 400); (450, 800)]).
    + change [(700, 1500); (0, 400); (450, 800); (0, 300)]
        with ([(700, 1500); (0, 400); (450, 800)] ++ [(0, 300)]).
      apply Permutation_sym, Permutation_cons_append.
    + apply perm_skip.
      change [(700, 1500); (0, 400); (450, 800)]
        with ([(700, 1500)] ++ [(0, 400); (450, 800)]).
      apply perm_trans with (l' := [(0, 400); (450, 800)] ++ [(700, 1500)]).
      * apply Permutation_app_comm.
      * simpl. apply perm_swap.
  - lia.
  - repeat constructor; unfold range_start, range_end; simpl; lia.
Defined.

(* ===================================================================== *)
(** * Properties of the planning and of the progress scaling              *)
(* ===================================================================== *)

(** X29. The second merge of the combined mode loses nothing and treats both
    sources alike: when both minimum durations are at least 100 ms, every
    range that passed the merge of its own source is covered by a range of
    the final plan, and the plan is the same if the static ranges are put
    before the silence ranges. *)
Theorem two_stage_plan_keeps_ranges (silence_ranges static_ranges : list TimeRange)
    (min_silence_duration_ms min_static_duration_ms : Z) :
  100 <= min_silence_duration_ms -> 100 <= min_static_duration_ms ->
  let merged_silence :=
    merge_and_optimize_ranges silence_ranges min_silence_duration_ms default_gap_ms in
  let merged_static :=
    merge_and_optimize_ranges static_ranges min_static_duration_ms default_gap_ms in
  let plan := plan_ranges BothMode silence_ranges static_ranges
                min_silence_duration_ms min_static_duration_ms in
  (forall r, In r merged_silence \/ In r merged_static ->
             exists o, In o plan /\ covers o r)
  /\ plan = merge_and_optimize_ranges (merged_static ++ merged_silence) 100 default_gap_ms.
Proof.
  intros Hs Hv merged_silence merged_static plan.
  destruct (merge_emitted min_silence_duration_ms default_gap_ms silence_ranges)
    as (lo1 & Ha1 & _). fold merged_silence in Ha1.
  destruct (merge_emitted min_static_duration_ms default_gap_ms static_ranges)
    as (lo2 & Ha2 & _). fold merged_static in Ha2.
  rewrite Forall_forall in Ha1, Ha2.
  split.
  - intros r Hr. apply merge_covers_long.
    + apply in_or_app. exact Hr.
    + destruct Hr as [Hr|Hr]; [destruct (Ha1 r Hr) | destruct (Ha2 r Hr)]; lia.
  - apply merge_permutation; [apply Permutation_app_comm|].
    apply Forall_forall. intros r Hr. apply in_app_or in Hr.
    unfold reaches_itself, default_gap_ms.
    destruct Hr as [Hr|Hr]; [destruct (Ha1 r Hr) as [_ H] | destruct (Ha2 r Hr) as [_ H]];
      unfold duration in H; lia.
Qed.

Lemma two_stage_plan_keeps_ranges_witness :
  let merged_silence := merge_and_optimize_ranges [(0, 600); (650, 900); (5000, 5200)] 500 100 in
  let merged_static := merge_and_optimize_ranges [(800, 1500); (3000, 3300)] 300 100 in
  let plan := plan_ranges BothMode [(0, 600); (650, 900); (5000, 5200)]
                [(800, 1500); (3000, 3300)] 500 300 in
  plan = [(0, 1500); (3000, 3300)]
  /\ (forall r, In r merged_silence \/ In r merged_static ->
                exists o, In o plan /\ covers o r)
  /\ plan = merge_and_optimize_ranges (merged_static ++ merged_silence) 100 default_gap_ms.
Proof.
  split; [reflexivity|].
  apply (two_stage_plan_keeps_ranges [(0, 600); (650, 900); (5000, 5200)]
           [(800, 1500); (3000, 3300)] 500 300); lia.
Defined.

(** X30. Scaled progress stays in its share: for a positive maximum, a value
    between 0 and the maximum and a non-negative share, the value handed on
    is defined and lies between the base and the base plus the share (for
    the audio task between 0 and 50, for the video task between 50 and
    100). *)
Theorem progress_stays_in_share (base_progress total_range : Q) (value maximum : Z) :
  0 < maximum -> 0 <= value <= maximum -> (0 <= total_range)%Q ->
  exists p, progress_value base_progress total_range value maximum = Some p
            /\ (base_progress <= p)%Q /\ (p <= base_progress + total_range)%Q.
Proof.
  intros Hm Hv Ht. unfold progress_value.
  destruct (Z.eqb_spec maximum 0); [lia|].
  eexists. split; [reflexivity|].
  assert (Hpos : (0 < inject_Z maximum)%Q).
  { change 0%Q with (inject_Z 0). now rewrite <- Zlt_Qlt. }
  assert (H0 : (0 <= inject_Z value / inject_Z maximum)%Q).
  { apply Qle_shift_div_l; [exact Hpos|]. rewrite Qmult_0_l.
    change 0%Q with (inject_Z 0). rewrite <- Zle_Qle. lia. }
  assert (H1 : (inject_Z value / inject_Z maximum <= 1)%Q).
  { apply Qle_shift_div_r; [exact Hpos|]. rewrite Qmult_1_l.
    rewrite <- Zle_Qle. lia. }
  revert H0 H1. generalize (inject_Z value / inject_Z maximum)%Q. intros t H0 H1.
  split; nra.
Qed.

Lemma progress_stays_in_share_witness :
  exists p, progress_value 50 50 60 240 = Some p /\ (50 <= p)%Q /\ (p <= 50 + 50)%Q.
Proof.
  apply (progress_stays_in_share 50 50 60 240); [lia | lia | discriminate].
Defined.
